(* ====================================================================== *)
(* Strategic linear regression: the counter-example notebook              *)
(* (Counter_examples_non-optimality_GLS.ipynb).                           *)
(*                                                                        *)
(* Shallow embedding of the notebook's equilibrium engine                 *)
(*   privacy_cost, estimation_cost, potential, covarianceEquilibrium,     *)
(* of its scenario builders and of its sweep driver, followed by the      *)
(* properties proved about them.                                          *)
(*                                                                        *)
(* Conventions of the embedding                                           *)
(*  - In the section Notebook a numpy float64 is idealised as an element  *)
(*    of a real closed field R (no rounding, no overflow), or the mark    *)
(*    NonFin for inf and nan, which numpy produces on a division by zero  *)
(*    and which every later addition of this program keeps.  What is      *)
(*    stated there about the code is what does not depend on rounding:    *)
(*    which calls are made with which arguments, which exception is       *)
(*    raised, what is stored where.                                       *)
(*  - The module Numpy holds estimation_cost over the operations of numpy *)
(*    taken as parameters: what is proved there holds whatever they       *)
(*    compute, hence of the binary64 code in every dimension.             *)
(*  - The module Binary64 holds the arithmetic as the machine does it:    *)
(*    the builder of the family with d+1 agents and estimation_cost on    *)
(*    data points of length 1, over the binary64 floats of the kernel.    *)
(*    It is where the results that rounding, overflow and underflow       *)
(*    decide are evaluated.                                               *)
(*  - A Python exception is a value Raise e of the result type; code that *)
(*    can raise is written in the corresponding error monad.              *)
(*  - A data point (a numpy vector of length d) is a row vector 'rV[R]_d; *)
(*    L, D and the exponents are sequences, indexed as the code indexes   *)
(*    them, an index out of range raising IndexError.                     *)
(*  - The pieces that come from numpy and scipy and that the notebook     *)
(*    only calls (the float power, scipy.optimize.minimize) are section   *)
(*    variables: every theorem holds for any behaviour of them, or states *)
(*    the contract it needs as a hypothesis.                              *)
(* ====================================================================== *)

From HB Require Import structures.
From mathcomp Require Import boot order algebra.
From mathcomp Require Import algC.
From Stdlib Require Import String.
From Stdlib Require PrimFloat FloatOps FloatAxioms ZArith.

Set Implicit Arguments.
Unset Strict Implicit.
Unset Printing Implicit Defensive.

Import GRing.Theory Num.Theory Order.Theory.
Local Open Scope ring_scope.

(* ---------------------------------------------------------------------- *)
(* Python results: a value or a raised exception                          *)
(* ---------------------------------------------------------------------- *)

Inductive exn : Type := IndexError | LinAlgError.

Inductive result (A : Type) : Type :=
  | Ret (a : A)
  | Raise (e : exn).

Arguments Ret {A} a.
Arguments Raise {A} e.

Definition bind {A B : Type} (m : result A) (k : A -> result B) : result B :=
  match m with
  | Ret a => k a
  | Raise e => Raise e
  end.

Notation "'call' x ':=' m 'in' k" := (bind m (fun x => k))
  (at level 200, x name, m at level 100, k at level 200,
   format "'[v' 'call'  x  ':='  m  'in' '/' k ']'").

(* [f(a) for a in s], left to right, stopping at the first exception. *)
Fixpoint mapM {A B : Type} (f : A -> result B) (s : seq A) : result (seq B) :=
  match s with
  | [::] => Ret [::]
  | a :: s' => call b := f a in call bs := mapM f s' in Ret (b :: bs)
  end.

(* for a in s: acc = f(acc, a) *)
Fixpoint foldM {A B : Type} (f : B -> A -> result B) (acc : B) (s : seq A)
  : result B :=
  match s with
  | [::] => Ret acc
  | a :: s' => call acc' := f acc a in foldM f acc' s'
  end.

(* s[i] for a non-negative index i. *)
Definition getitem {A : Type} (s : seq A) (i : nat) : result A :=
  match drop i s with
  | x :: _ => Ret x
  | [::] => Raise IndexError
  end.

(* s[i] = v for a non-negative index i. *)
Definition setitem {A : Type} (s : seq A) (i : nat) (v : A) : result (seq A) :=
  match drop i s with
  | x :: _ => Ret (set_nth x s i v)
  | [::] => Raise IndexError
  end.

(* range(n) *)
Definition range (n : nat) : seq nat := iota 0 n.

(* A key of the dictionary datas of the notebook: dim, or the pair
   (dim, tag) as in (dim,'d+1 example'). *)
Inductive key : Type :=
  | Dim (dim : nat)
  | DimTag (dim : nat) (tag : string).

(* k1 == k2 on keys *)
Definition key_eqb (k1 k2 : key) : bool :=
  match k1, k2 with
  | Dim m, Dim n => m == n
  | DimTag m s, DimTag n t => (m == n) && String.eqb s t
  | _, _ => false
  end.

(* ---------------------------------------------------------------------- *)
(* The arithmetic of numpy, taken as it is                                *)
(* ---------------------------------------------------------------------- *)

Module Numpy.

Section Arithmetic.

(* F: the float64 numbers; V: the data points, vectors of length d;
   M: the d x d matrices. *)
Variables (F V M : Type).

(* np.zeros((d,d)) *)
Variable zeros : M.
(* np.tensordot(x, x, axes=0) *)
Variable outer : V -> M.
(* l * m, a number times a matrix *)
Variable scale : F -> M -> M.
(* var += m *)
Variable madd : M -> M -> M.
(* np.trace(np.matrix(var)**(-1)), which can raise LinAlgError *)
Variable trace_inverse : M -> result F.
(* x**2, x / y and x + y on numbers, and the 0 that sum starts from *)
Variable square : F -> F.
Variable div : F -> F -> F.
Variable add : F -> F -> F.
Variable zero : F.

(* def estimation_cost(L, X, D):
     d=len(X[0]); n=len(L)
     var = np.zeros((d,d))
     for i in range(n):
         var += L[i]*np.tensordot(X[i],X[i],axes=0)
     GLS_cost = np.trace(np.matrix(var)**(-1))
     D_cost = sum([D[i]**2/L[i] for i in range(n)])
     return GLS_cost + D_cost
   over the operations of numpy, whatever they compute. *)
Definition estimation_cost (L : seq F) (X : seq V) (D : seq F) : result F :=
  call X0 := getitem X 0 in
  let n := size L in
  call var :=
    foldM (fun var i =>
             call Li := getitem L i in
             call Xi := getitem X i in
             Ret (madd var (scale Li (outer Xi))))
          zeros (range n) in
  call GLS_cost := trace_inverse var in
  call terms :=
    mapM (fun i =>
            call Di := getitem D i in
            call Li := getitem L i in
            Ret (div (square Di) Li))
         (range n) in
  let D_cost := foldl add zero terms in
  Ret (add GLS_cost D_cost).

End Arithmetic.

End Numpy.

(* ---------------------------------------------------------------------- *)
(* The arithmetic of the machine: binary64                                *)
(* ---------------------------------------------------------------------- *)

Module Binary64.

Import PrimFloat.
Local Open Scope float_scope.

(* float(n) for a Python int n >= 0: n rounded to the nearest float, ties
   to even (exact below 2^53). *)
Definition of_nat (n : nat) : float :=
  FloatOps.SF2Prim
    (SpecFloat.binary_normalize FloatOps.prec FloatOps.emax
       (BinInt.Z.of_nat n) BinNums.Z0 false).

(* float(-n) for a Python int n >= 0; -0 is the int 0, hence +0.0. *)
Definition of_neg (n : nat) : float :=
  if n is 0%N then 0 else - of_nat n.

(* x**2 for a float64 x: C's pow(x, 2.0), taken as the rounded product
   x*x; the two agree at zero and at the powers of two. *)
Definition square (x : float) : float := x * x.

(* def e(i): res = np.zeros(d); res[i] = 1; return res *)
Definition e (d i : nat) : result (seq float) := setitem (nseq d 0) i 1.

(* The body of compute_costs_and_precisions_d_plus_1 up to its return:
     X = [e(i) for i in range(d)]
     X.append(np.ones(d)/d)
     exponents = np.ones(d+1)*exps[0]
     exponents[d] = exps[1]
     D = np.ones(d+1)*np.sqrt(delta)
     D[d] = -d*np.sqrt(delta)
   A data point is the sequence of its d coordinates. *)
Definition scenario_d_plus_1 (d : nat) (delta : float) (exps : seq float)
  : result (seq (seq float) * seq float * seq float) :=
  call X := mapM (e d) (range d) in
  let X := rcons X [seq x / of_nat d | x <- nseq d 1] in
  call exps0 := getitem exps 0 in
  let exponents := [seq x * exps0 | x <- nseq d.+1 1] in
  call exps1 := getitem exps 1 in
  call exponents := setitem exponents d exps1 in
  let D := [seq x * sqrt delta | x <- nseq d.+1 1] in
  call D := setitem D d (of_neg d * sqrt delta) in
  Ret (X, D, exponents).

(* np.trace(np.matrix(var)**(-1)) for the 1 x 1 matrix [[var]]: LAPACK
   reports a singular matrix on a pivot equal to zero, and numpy raises
   LinAlgError; otherwise the inverse is [[1/var]]. *)
Definition trace_inverse_1D (var : float) : result float :=
  if var =? 0 then Raise LinAlgError else Ret (1 / var).

(* estimation_cost(L, X, D) when the data points have length 1, X[i] being
   the vector [X_i]:
     d=len(X[0]); n=len(L)
     var = np.zeros((d,d))
     for i in range(n):
         var += L[i]*np.tensordot(X[i],X[i],axes=0)
     GLS_cost = np.trace(np.matrix(var)**(-1))
     D_cost = sum([D[i]**2/L[i] for i in range(n)])
     return GLS_cost + D_cost *)
Definition estimation_cost_1D (L X D : seq float) : result float :=
  call X0 := getitem X 0 in
  let n := size L in
  call var :=
    foldM (fun var i =>
             call Li := getitem L i in
             call Xi := getitem X i in
             Ret (var + Li * (Xi * Xi)))
          0 (range n) in
  call GLS_cost := trace_inverse_1D var in
  call terms :=
    mapM (fun i =>
            call Di := getitem D i in
            call Li := getitem L i in
            Ret (square Di / Li))
         (range n) in
  let D_cost := foldl add 0 terms in
  Ret (GLS_cost + D_cost).


(* The real number that a finite float x denotes, counted in units of
   2^-1074, the smallest positive float: x = ulps x * 2^-1074. *)
Definition ulps (x : float) : BinNums.Z :=
  match FloatOps.Prim2SF x with
  | SpecFloat.S754_finite s m e =>
      let v := BinInt.Z.shiftl (BinNums.Zpos m)
                 (BinInt.Z.add e (BinInt.Z.of_nat 1074%N)) in
      if s then BinInt.Z.opp v else v
  | _ => BinNums.Z0
  end.

(* The information matrix sum_i L_i * X_i^2 of points of length 1, over the
   reals, in units of 2^-3222. *)
Definition exact_information_1D (L X : seq float) : BinNums.Z :=
  foldr BinInt.Z.add BinNums.Z0
    [seq BinInt.Z.mul (ulps lx.1) (BinInt.Z.mul (ulps lx.2) (ulps lx.2))
    | lx <- zip L X].


(* Coordinate j of the net bias sum_i D_i * X_i, over the reals, in units
   of 2^-2148. *)
Definition exact_net_bias (X : seq (seq float)) (D : seq float) (j : nat)
  : BinNums.Z :=
  foldr BinInt.Z.add BinNums.Z0
    [seq BinInt.Z.mul (ulps dx.1) (ulps (nth 0 dx.2 j)) | dx <- zip D X].

(* The same coordinate summed in binary64: sum(D[i]*X[i][j]). *)
Definition float_net_bias (X : seq (seq float)) (D : seq float) (j : nat)
  : float :=
  foldl add 0 [seq dx.1 * nth 0 dx.2 j | dx <- zip D X].

End Binary64.

(* ---------------------------------------------------------------------- *)
(* The notebook                                                           *)
(* ---------------------------------------------------------------------- *)

Section Notebook.

Variable R : rcfType.

(* A float64 value, idealised: an exact real, or inf / nan.  The floats of
   the machine are those of the module Binary64. *)
Inductive float : Type :=
  | Fin (r : R)
  | NonFin.

(* a + b *)
Definition fadd (a b : float) : float :=
  match a, b with
  | Fin x, Fin y => Fin (x + y)
  | _, _ => NonFin
  end.

(* a / b on numpy floats: a zero divisor gives inf or nan (and a warning). *)
Definition fdiv (a b : R) : float :=
  if b == 0 then NonFin else Fin (a / b).

(* sum(ts) and np.sum(ts): 0 + ts[0] + ts[1] + ... *)
Definition fsum (ts : seq float) : float := foldl fadd (Fin 0) ts.

(* x ** y of numpy, taken as it is. *)
Variable pow : float -> R -> float.

(* scipy.optimize.minimize(fun, x0, bounds=bnds, tol=tol).x; an exception
   raised by fun goes through. *)
Variable minimize :
  (seq R -> result float) -> seq R -> seq (R * R) -> R -> result (seq R).

(* def privacy_cost(l, exponent, scaling_factor=1):
     return (l/scaling_factor)**exponent *)
Definition privacy_cost (l exponent scaling_factor : R) : float :=
  pow (fdiv l scaling_factor) exponent.

Section Dimension.

(* d: the length of the data points. *)
Variable d : nat.

(* np.tensordot(x, x, axes=0) *)
Definition outer (x : 'rV[R]_d) : 'M[R]_d := x^T *m x.

(* np.trace(np.matrix(var)**(-1)): numpy raises LinAlgError on a singular
   matrix.  Idealised: singular is taken over the reals and the inverse is
   exact.  In binary64 LAPACK reports a pivot that is exactly zero and
   nothing else, so that rounding can make a singular matrix invertible
   and underflow can make an invertible one singular; in dimension 1 this
   is Binary64.trace_inverse_1D, evaluated in the section Rounding. *)
Definition trace_inverse (var : 'M[R]_d) : result R :=
  if var \in unitmx then Ret (\tr (invmx var)) else Raise LinAlgError.

(* def estimation_cost(L, X, D):
     d=len(X[0]); n=len(L)
     var = np.zeros((d,d))
     for i in range(n):
         var += L[i]*np.tensordot(X[i],X[i],axes=0)
     GLS_cost = np.trace(np.matrix(var)**(-1))
     D_cost = sum([D[i]**2/L[i] for i in range(n)])
     return GLS_cost + D_cost *)
Definition estimation_cost (L : seq R) (X : seq 'rV[R]_d) (D : seq R)
  : result float :=
  call X0 := getitem X 0 in
  let n := size L in
  call var :=
    foldM (fun var i =>
             call Li := getitem L i in
             call Xi := getitem X i in
             Ret (var + Li *: outer Xi))
          (0 : 'M[R]_d) (range n) in
  call GLS_cost := trace_inverse var in
  call terms :=
    mapM (fun i =>
            call Di := getitem D i in
            call Li := getitem L i in
            Ret (fdiv (Di ^+ 2) Li))
         (range n) in
  let D_cost := fsum terms in
  Ret (fadd (Fin GLS_cost) D_cost).

(* def potential(L, X, D, exponents):
     estim_cost = estimation_cost(L, X, D)
     indiv_cost = np.sum([privacy_cost(L[i], exponents[i])
                          for i in range(len(L))])
     return indiv_cost + estim_cost *)
Definition potential (L : seq R) (X : seq 'rV[R]_d) (D exponents : seq R)
  : result float :=
  call estim_cost := estimation_cost L X D in
  call costs :=
    mapM (fun i =>
            call Li := getitem L i in
            call ei := getitem exponents i in
            Ret (privacy_cost Li ei 1))
         (range (size L)) in
  let indiv_cost := fsum costs in
  Ret (fadd indiv_cost estim_cost).

(* The bounds [1e-10, 1] and the tolerance 1e-20 of the solver. *)
Definition lower_bound : R := 10%:R ^- 10.
Definition upper_bound : R := 1.
Definition tolerance : R := 10%:R ^- 20.

(* def covarianceEquilibrium(X, D, exponents):
     n = len(X)
     bnds = [[1e-10, 1] for i in range(n)]
     L0 = np.ones(n)
     tol = 1e-20
     sol = opt.minimize(potential, L0, args=(X, D, exponents),
                        bounds=bnds, tol=tol)
     return estimation_cost(sol.x, X, D), sol.x *)
Definition covarianceEquilibrium (X : seq 'rV[R]_d) (D exponents : seq R)
  : result (float * seq R) :=
  let n := size X in
  let bnds := [seq (lower_bound, upper_bound) | i <- range n] in
  let L0 := nseq n (1 : R) in
  let tol := tolerance in
  call sol_x :=
    minimize (fun L => potential L X D exponents) L0 bnds tol in
  call cost := estimation_cost sol_x X D in
  Ret (cost, sol_x).

(* The quantities the specification names. *)

(* The weighted information matrix: sum over i of L_i * outer(X_i, X_i). *)
Definition information_matrix (L : seq R) (X : seq 'rV[R]_d) : 'M[R]_d :=
  \sum_(i < size L) nth 0 L i *: outer (nth 0 X i).

(* sum over i of D_i^2 / L_i *)
Definition perturbation_penalty (L D : seq R) : R :=
  \sum_(i < size L) nth 0 D i ^+ 2 / nth 0 L i.

(* trace(inverse(M)) + sum over i of D_i^2 / L_i *)
Definition spec_estimation_cost (L : seq R) (X : seq 'rV[R]_d) (D : seq R) : R :=
  \tr (invmx (information_matrix L X)) + perturbation_penalty L D.

(* Agent i's own term of the potential. *)
Definition agent_cost (L exponents : seq R) (i : nat) : float :=
  privacy_cost (nth 0 L i) (nth 0 exponents i) 1.

(* def e(i): res = np.zeros(d); res[i] = 1; return res
   (the local function of both d-dimensional builders) *)
Definition e (i : nat) : result 'rV[R]_d :=
  if (i < d)%N then Ret (\row_(j < d) (if (j : nat) == i then 1 else 0))
  else Raise IndexError.

(* np.ones(d) *)
Definition ones : 'rV[R]_d := const_mx 1.

(* The body of compute_costs_and_precisions_d_plus_1 up to its return:
     X = [e(i) for i in range(d)]
     X.append(np.ones(d)/d)
     exponents = np.ones(d+1)*exps[0]
     exponents[d] = exps[1]
     D = np.ones(d+1)*np.sqrt(delta)
     D[d] = -d*np.sqrt(delta)
   The quotient by d, the products and the square root are exact here;
   Binary64.scenario_d_plus_1 is the same body with the rounded ones. *)
Definition scenario_d_plus_1 (delta : R) (exps : seq R)
  : result (seq 'rV[R]_d * seq R * seq R) :=
  call X := mapM e (range d) in
  let X := rcons X (map_mx (fun x => x / d%:R) ones) in
  call exps0 := getitem exps 0 in
  let exponents := [seq x * exps0 | x <- nseq d.+1 1] in
  call exps1 := getitem exps 1 in
  call exponents := setitem exponents d exps1 in
  let D := [seq x * Num.sqrt delta | x <- nseq d.+1 1] in
  call D := setitem D d (- d%:R * Num.sqrt delta) in
  Ret (X, D, exponents).

(* def compute_costs_and_precisions_d_plus_1(d, delta, exps):
     ...
     return covarianceEquilibrium(X,D,exponents) *)
Definition compute_costs_and_precisions_d_plus_1 (delta : R) (exps : seq R)
  : result (float * seq R) :=
  call s := scenario_d_plus_1 delta exps in
  let: (X, D, exponents) := s in
  covarianceEquilibrium X D exponents.

(* The body of compute_costs_and_precisions up to its return:
     X = [e(i) for i in range(d)]
     X.append(np.ones(d))
     X.append(np.ones(d))
     exponents = np.ones(d+2)*exps[0]
     exponents[d+1] = exps[1]
     D = np.zeros(d+2)
     D[d] = delta
     D[d+1] = -delta *)
Definition scenario_d_plus_2 (delta : R) (exps : seq R)
  : result (seq 'rV[R]_d * seq R * seq R) :=
  call X := mapM e (range d) in
  let X := rcons X ones in
  let X := rcons X ones in
  call exps0 := getitem exps 0 in
  let exponents := [seq x * exps0 | x <- nseq d.+2 1] in
  call exps1 := getitem exps 1 in
  call exponents := setitem exponents d.+1 exps1 in
  let D := nseq d.+2 0 in
  call D := setitem D d delta in
  call D := setitem D d.+1 (- delta) in
  Ret (X, D, exponents).

(* def compute_costs_and_precisions(d, delta, exps):
     ...
     return covarianceEquilibrium(X,D,exponents) *)
Definition compute_costs_and_precisions (delta : R) (exps : seq R)
  : result (float * seq R) :=
  call s := scenario_d_plus_2 delta exps in
  let: (X, D, exponents) := s in
  covarianceEquilibrium X D exponents.

(* The net bias of a correction D on the data X: sum over i of D_i * X_i. *)
Definition net_bias (X : seq 'rV[R]_d) (D : seq R) : 'rV[R]_d :=
  \sum_(0 <= i < size X) nth 0 D i *: nth 0 X i.

(* The standard basis of R^d, in order. *)
Definition standard_basis : seq 'rV[R]_d :=
  [seq delta_mx 0 i | i <- enum 'I_d].

(* The data points span R^d: no direction other than zero is orthogonal to
   all of them. *)
Definition spanning (X : seq 'rV[R]_d) : Prop :=
  forall y : 'rV[R]_d,
    (forall i, (i < size X)%N -> (y *m (nth 0 X i)^T) 0 0 = 0) -> y = 0.

End Dimension.

(* The one-dimensional examples.  Their arrays of shape (n, 1) are kept as
   they are for X (n points of length 1) and flattened for D, whose rows
   the code only squares and divides. *)

(* np.array([[1],[-1]]) and np.array([[1],[-1],[0],[0]]) *)
Definition perturbation_matrix_1Dexamples (example_number : int) : seq R :=
  if example_number == 1 then [:: 1; -1] else [:: 1; -1; 0; 0].

(* np.array([1.01,20]) and np.array([1.01,1.01,1.1,1.1]) *)
Definition exponents_1D_examples (example_number : int) : seq R :=
  if example_number == 1 then [:: 101%:R / 100%:R; 20%:R]
  else [:: 101%:R / 100%:R; 101%:R / 100%:R; 11%:R / 10%:R; 11%:R / 10%:R].

(* np.array([[1],[1]]) and np.array([[1],[1],[1],[1]]) *)
Definition X_1D_examples (example_number : int) : seq 'rV[R]_1 :=
  if example_number == 1 then [:: const_mx 1; const_mx 1]
  else [:: const_mx 1; const_mx 1; const_mx 1; const_mx 1].

(* np.linspace(start, stop, num): num points, stop included. *)
Definition linspace (start stop : R) (num : nat) : seq R :=
  let step := (stop - start) / (num.-1)%:R in
  let y := [seq i%:R * step + start | i <- range num] in
  if (1 < num)%N then set_nth 0 y num.-1 stop else y.

(* def compute_for_example(deltaMax, example_number):
     X = X_1D_examples(example_number)
     E = exponents_1D_examples(example_number)
     D = perturbation_matrix_1Dexamples(example_number)
     deltas = np.linspace(0,deltaMax,100)
     costs_precs = [covarianceEquilibrium(X,np.sqrt(delta)*D,E)
                    for delta in deltas]
     costs = np.array([cp[0] for cp in costs_precs])
     precisions = np.array([cp[1] for cp in costs_precs])
     return deltas,costs,precisions *)
Definition compute_for_example (deltaMax : R) (example_number : int)
  : result (seq R * seq float * seq (seq R)) :=
  let X := X_1D_examples example_number in
  let E := exponents_1D_examples example_number in
  let D := perturbation_matrix_1Dexamples example_number in
  let deltas := linspace 0 deltaMax 100 in
  call costs_precs :=
    mapM (fun delta =>
            covarianceEquilibrium X [seq Num.sqrt delta * x | x <- D] E)
         deltas in
  let costs := [seq cp.1 | cp <- costs_precs] in
  let precisions := [seq cp.2 | cp <- costs_precs] in
  Ret (deltas, costs, precisions).

(* The cached sweeps of the d-dimensional families (the two loops of the
   notebook over dim; print and pickle.dump are left out). *)

(* A stored sweep: the tuple (deltas, costs, precisions). *)
Definition sweep : Type := (seq R * seq float * seq (seq R))%type.

(* The dictionary datas, in insertion order. *)
Definition cache : Type := seq (key * sweep).

(* k in datas *)
Definition contains (datas : cache) (k : key) : bool :=
  has (fun kv => key_eqb kv.1 k) datas.

(* datas.get(k) *)
Definition lookup (datas : cache) (k : key) : option sweep :=
  if [seq kv <- datas | key_eqb kv.1 k] is kv :: _ then Some kv.2 else None.

(* datas[k] = v *)
Definition store (datas : cache) (k : key) (v : sweep) : cache :=
  if contains datas k
  then [seq (if key_eqb kv.1 k then (kv.1, v) else kv) | kv <- datas]
  else rcons datas (k, v).

(* The body of both loops for one dim:
     deltas = np.linspace(0,deltaMax,100)
     costs_precs = [family(dim,delta,[20,1.5]) for delta in deltas]
     costs = np.array([cp[0] for cp in costs_precs])
     precisions = np.array([cp[1] for cp in costs_precs])
   giving (deltas,costs,precisions). *)
Definition family_sweep
  (family : nat -> R -> seq R -> result (float * seq R))
  (dim : nat) (deltaMax : R) : result sweep :=
  let deltas := linspace 0 deltaMax 100 in
  call costs_precs :=
    mapM (fun delta => family dim delta [:: 20%:R; 3%:R / 2%:R]) deltas in
  let costs := [seq cp.1 | cp <- costs_precs] in
  let precisions := [seq cp.2 | cp <- costs_precs] in
  Ret (deltas, costs, precisions).

(* for dim, deltaMax in todo:
       if key_of(dim) in datas: continue
       datas[key_of(dim)] = (deltas,costs,precisions)
   The dictionary is mutated in place: when a sweep raises, what was stored
   before stays, and is returned with the exception. *)
Fixpoint cached_sweeps (key_of : nat -> key)
  (family : nat -> R -> seq R -> result (float * seq R))
  (todo : seq (nat * result R)) (datas : cache) : cache * result unit :=
  match todo with
  | [::] => (datas, Ret tt)
  | (dim, deltaMax) :: todo' =>
      if contains datas (key_of dim)
      then cached_sweeps key_of family todo' datas
      else match (call dmax := deltaMax in family_sweep family dim dmax) with
           | Raise e0 => (datas, Raise e0)
           | Ret v => cached_sweeps key_of family todo'
                        (store datas (key_of dim) v)
           end
  end.

(* deltas_max = [1.5e-3,2.5e-5,2.5e-7,2e-8] *)
Definition deltas_max : seq R :=
  [:: 15%:R / 10%:R ^+ 4; 25%:R / 10%:R ^+ 6; 25%:R / 10%:R ^+ 8;
      2%:R / 10%:R ^+ 8].

(* for i,dim in enumerate([2,5,10,15]):
       if (dim,'d+1 example') in datas: continue
       deltas = np.linspace(0,deltas_max[i],100)
       costs_precs = [compute_costs_and_precisions_d_plus_1(dim,delta,[20,1.5])
                      for delta in deltas]
       ...
       datas[(dim,'d+1 example')] = (deltas,costs,precisions) *)
Definition sweep_d_plus_1_cell (datas : cache) : cache * result unit :=
  cached_sweeps (fun dim => DimTag dim "d+1 example")
    (fun dim => compute_costs_and_precisions_d_plus_1 dim)
    [seq (id.2, getitem deltas_max id.1)
    | id <- zip (iota 0 4) [:: 2; 5; 10; 15]%N]
    datas.

(* for dim,ylim in [(2,0.025**2),(5,0.0001),(10,0.005**2),(15,0.003**2)]:
       if dim in datas: continue
       deltas = np.linspace(0,ylim,100)
       costs_precs = [compute_costs_and_precisions(dim,delta,[20,1.5])
                      for delta in deltas]
       ...
       datas[dim] = (deltas,costs,precisions) *)
Definition sweep_d_plus_2_cell (datas : cache) : cache * result unit :=
  cached_sweeps Dim
    (fun dim => compute_costs_and_precisions dim)
    [:: (2%N, Ret ((25%:R / 1000%:R) ^+ 2)); (5%N, Ret (1 / 10%:R ^+ 4));
        (10%N, Ret ((5%:R / 1000%:R) ^+ 2));
        (15%N, Ret ((3%:R / 1000%:R) ^+ 2))]
    datas.

(* The contract of a bounded minimizer: called with one feasible interval
   per coordinate, it returns a point of the same length inside them. *)
Definition respects_bounds
  (solver : (seq R -> result float) -> seq R -> seq (R * R) -> R
            -> result (seq R)) : Prop :=
  forall f x0 bnds tol x,
    size bnds = size x0 -> all (fun b => b.1 <= b.2) bnds ->
    solver f x0 bnds tol = Ret x ->
    size x = size x0 /\
    forall i, (i < size x)%N ->
      (nth (0, 0) bnds i).1 <= nth 0 x i <= (nth (0, 0) bnds i).2.

(* A minimizer sees its objective only through the values it returns. *)
Definition extensional
  (solver : (seq R -> result float) -> seq R -> seq (R * R) -> R
            -> result (seq R)) : Prop :=
  forall f g x0 bnds tol, f =1 g -> solver f x0 bnds tol = solver g x0 bnds tol.

(* The simplest bounded minimizer: it projects the start point on the box
   and makes no step. *)
Definition projected_start (f : seq R -> result float) (x0 : seq R)
  (bnds : seq (R * R)) (tol : R) : result (seq R) :=
  Ret [seq Num.max xb.2.1 (Num.min xb.2.2 xb.1) | xb <- zip x0 bnds].

(* ---------------------------------------------------------------------- *)
(* Results, indexing and loops                                            *)
(* ---------------------------------------------------------------------- *)

Section Results.

Variables A B : Type.

Lemma getitem_nth (x0 : A) (s : seq A) (i : nat) :
  (i < size s)%N -> getitem s i = Ret (nth x0 s i).
Proof.
rewrite /getitem => lt_i; rewrite (drop_nth x0 lt_i); by [].
Qed.

Lemma getitem_out (s : seq A) (i : nat) :
  (size s <= i)%N -> getitem s i = Raise IndexError.
Proof. by rewrite /getitem => le_i; rewrite drop_oversize. Qed.

Lemma getitem_Ret (x0 : A) (s : seq A) (i : nat) (x : A) :
  getitem s i = Ret x -> (i < size s)%N /\ nth x0 s i = x.
Proof.
case: (ltnP i (size s)) => [lt_i|le_i]; last by rewrite getitem_out.
by rewrite (getitem_nth x0 lt_i) => -[<-].
Qed.

Lemma setitem_set_nth (x0 : A) (s : seq A) (i : nat) (v : A) :
  (i < size s)%N -> setitem s i v = Ret (set_nth x0 s i v).
Proof.
rewrite /setitem => lt_i; rewrite (drop_nth x0 lt_i); congr Ret.
move: (nth x0 s i) => x.
by elim: s i lt_i => [|a s IH] [|i] //=; rewrite ltnS => /IH ->.
Qed.

Lemma mapM_Ret (f : A -> B) (s : seq A) :
  mapM (fun a => Ret (f a)) s = Ret [seq f a | a <- s].
Proof. by elim: s => [|a s IH] //=; rewrite IH. Qed.

Lemma mapM_inv (f : A -> result B) (s : seq A) (bs : seq B) :
  mapM f s = Ret bs ->
  size bs = size s /\
  forall a0 b0 i, (i < size s)%N -> f (nth a0 s i) = Ret (nth b0 bs i).
Proof.
elim: s bs => [|a s IH] bs /=; first by case=> <-.
case fa: (f a) => [b|//] /=; case ms: (mapM f s) => [bs'|//] /= -[<-].
have [sz nths] := IH _ ms; split; first by rewrite /= sz.
by move=> a0 b0 [|i] //=; rewrite ltnS => /nths; apply.
Qed.

Lemma foldM_Ret (f : B -> A -> B) (acc : B) (s : seq A) :
  foldM (fun b a => Ret (f b a)) acc s = Ret (foldl f acc s).
Proof. by elim: s acc => [|a s IH] //= acc. Qed.

End Results.

Section ResultsEq.

Variables (A : eqType) (B : Type).

Lemma bindE (C : Type) (a : A) (k : A -> result C) : bind (Ret a) k = k a.
Proof. by []. Qed.

Lemma eq_in_mapM (f g : A -> result B) (s : seq A) :
  {in s, f =1 g} -> mapM f s = mapM g s.
Proof.
elim: s => [|a s IH] //= eq_fg.
rewrite (eq_fg a (mem_head a s)) IH // => b b_s.
by apply: eq_fg; rewrite inE b_s orbT.
Qed.

Lemma mapM_total (f : A -> result B) (s : seq A) :
  (forall a, a \in s -> exists b, f a = Ret b) ->
  exists bs, mapM f s = Ret bs.
Proof.
elim: s => [|a s IH] /= tot; first by exists [::].
have [b fa] := tot a (mem_head a s).
have [bs ms] : exists bs, mapM f s = Ret bs.
  by apply: IH => c c_s; apply: tot; rewrite inE c_s orbT.
by exists (b :: bs); rewrite fa ms.
Qed.

Lemma mapM_fails (f : A -> result B) (s : seq A) (a : A) (bs : seq B) :
  a \in s -> (forall b, f a <> Ret b) -> mapM f s <> Ret bs.
Proof.
elim: s bs => [|c s IH] bs //=; rewrite inE => /orP [/eqP <-|a_s] fails.
  by case fa: (f a) => [b|//]; case: (fails b).
case: (f c) => [b|//] /=; case ms: (mapM f s) => [bs'|//] /=.
by case: (IH bs' a_s fails).
Qed.

Lemma eq_in_foldM (f g : B -> A -> result B) (acc : B) (s : seq A) :
  (forall b, {in s, f b =1 g b}) -> foldM f acc s = foldM g acc s.
Proof.
elim: s acc => [|a s IH] //= acc eq_fg.
rewrite (eq_fg acc a (mem_head a s)); case: (g acc a) => //= acc'.
by apply: IH => b c c_s; apply: eq_fg; rewrite inE c_s orbT.
Qed.

Lemma foldM_fails (f : B -> A -> result B) (acc : B) (s : seq A) (a : A)
  (r : B) :
  a \in s -> (forall b b', f b a <> Ret b') -> foldM f acc s <> Ret r.
Proof.
elim: s acc => [|c s IH] acc //=; rewrite inE => /orP [/eqP <-|a_s] fails.
  by case fa: (f acc a) => [b|//]; case: (fails acc b).
by case: (f acc c) => [b|//] /=; apply: IH.
Qed.

End ResultsEq.

Lemma mem_range (n i : nat) : (i \in range n) = (i < n)%N.
Proof. by rewrite /range mem_iota. Qed.

(* ---------------------------------------------------------------------- *)
(* Float sums                                                             *)
(* ---------------------------------------------------------------------- *)

Lemma faddA : associative fadd.
Proof. by case=> [x|] [y|] [z|] //=; rewrite addrA. Qed.

Lemma faddC : commutative fadd.
Proof. by case=> [x|] [y|] //=; rewrite addrC. Qed.

Lemma fadd0 : left_id (Fin 0) fadd.
Proof. by case=> [x|] //=; rewrite add0r. Qed.

HB.instance Definition _ :=
  Monoid.isComLaw.Build float (Fin 0) fadd faddA faddC fadd0.

Lemma fadd_NonFin (a : float) : fadd a NonFin = NonFin.
Proof. by case: a. Qed.

Lemma fsumE (ts : seq float) : fsum ts = \big[fadd/Fin 0]_(t <- ts) t.
Proof.
have fold_big a : foldl fadd a ts = fadd a (\big[fadd/Fin 0]_(t <- ts) t).
  elim: ts a => [|t ts IH] a /=; first by rewrite big_nil faddC fadd0.
  by rewrite IH big_cons faddA.
by rewrite /fsum fold_big fadd0.
Qed.

Lemma fsum_map_range (F : nat -> float) (n : nat) :
  fsum [seq F i | i <- range n] = \big[fadd/Fin 0]_(i < n) F i.
Proof.
by rewrite fsumE big_map /range -[n in iota 0 n]subn0 -/(index_iota 0 n) big_mkord.
Qed.

Lemma big_fadd_Fin (I : Type) (r : seq I) (P : pred I) (F : I -> R) :
  \big[fadd/Fin 0]_(i <- r | P i) Fin (F i) = Fin (\sum_(i <- r | P i) F i).
Proof.
elim: r => [|i r IH]; first by rewrite !big_nil.
by rewrite !big_cons IH; case: (P i).
Qed.

Lemma big_fadd_NonFin (n : nat) (F : 'I_n -> float) (i : 'I_n) :
  F i = NonFin -> \big[fadd/Fin 0]_(j < n) F j = NonFin.
Proof. by move=> Fi; rewrite (bigD1 i) //= Fi. Qed.

Lemma foldl_addE (V : zmodType) (F : nat -> V) (a : V) (s : seq nat) :
  foldl (fun v i => v + F i) a s = a + \sum_(i <- s) F i.
Proof.
elim: s a => [|i s IH] a /=; first by rewrite big_nil addr0.
by rewrite IH big_cons addrA.
Qed.

Lemma sum_range (V : zmodType) (F : nat -> V) (n : nat) :
  \sum_(i <- range n) F i = \sum_(i < n) F i.
Proof.
by rewrite /range -[n in iota 0 n]subn0 -/(index_iota 0 n) big_mkord.
Qed.

(* ---------------------------------------------------------------------- *)
(* estimation_cost, evaluated                                             *)
(* ---------------------------------------------------------------------- *)

Section CostLemmas.

Variable d : nat.
Implicit Types (L D : seq R) (X : seq 'rV[R]_d).

(* The loop over the agents builds the information matrix. *)
Lemma information_loop L X :
  (size L <= size X)%N ->
  foldM (fun var i =>
           call Li := getitem L i in
           call Xi := getitem X i in
           Ret (var + Li *: outer Xi))
        (0 : 'M[R]_d) (range (size L))
  = Ret (information_matrix L X).
Proof.
move=> le_LX.
pose F i := nth 0 L i *: outer (nth 0 X i).
rewrite (@eq_in_foldM _ _ _ (fun var i => Ret (var + F i))).
  move=> var i; rewrite mem_range => lt_i.
  by rewrite (getitem_nth 0 lt_i) (getitem_nth 0 (leq_trans lt_i le_LX)).
by rewrite (foldM_Ret (fun var i => var + F i)) foldl_addE add0r sum_range.
Qed.

(* The list of the penalty terms. *)
Lemma penalty_terms L D :
  (size L <= size D)%N ->
  mapM (fun i =>
          call Di := getitem D i in
          call Li := getitem L i in
          Ret (fdiv (Di ^+ 2) Li))
       (range (size L))
  = Ret [seq fdiv (nth 0 D i ^+ 2) (nth 0 L i) | i <- range (size L)].
Proof.
move=> le_LD; rewrite -mapM_Ret; apply: eq_in_mapM => i.
rewrite mem_range => lt_i.
by rewrite (getitem_nth 0 (leq_trans lt_i le_LD)) (getitem_nth 0 lt_i).
Qed.

(* Their sum is finite exactly when no precision is zero. *)
Lemma penalty_sum L D :
  fsum [seq fdiv (nth 0 D i ^+ 2) (nth 0 L i) | i <- range (size L)]
  = if all (fun l => l != 0) L then Fin (perturbation_penalty L D)
    else NonFin.
Proof.
rewrite fsum_map_range; case: ifPn => [nz|].
  rewrite /perturbation_penalty -big_fadd_Fin; apply: eq_bigr => i _.
  by rewrite /fdiv (negbTE (all_nthP 0 nz i (ltn_ord i))).
rewrite -has_predC => /(has_nthP 0) [i lt_i /=]; rewrite negbK => /eqP Li.
by apply: (@big_fadd_NonFin _ _ (Ordinal lt_i)); rewrite /fdiv /= Li eqxx.
Qed.

Lemma estimation_costE L X D :
  (0 < size X)%N -> (size L <= size X)%N -> (size L <= size D)%N ->
  estimation_cost L X D =
    if information_matrix L X \in unitmx
    then Ret (if all (fun l => l != 0) L
              then Fin (spec_estimation_cost L X D) else NonFin)
    else Raise LinAlgError.
Proof.
move=> X_gt0 le_LX le_LD; rewrite /estimation_cost.
rewrite (getitem_nth 0 X_gt0) /= information_loop //= /trace_inverse.
case: ifP => //= _; rewrite penalty_terms //= penalty_sum.
by case: ifP.
Qed.

(* A returned cost means that no index was out of range. *)
Lemma estimation_cost_sizes L X D (v : float) :
  estimation_cost L X D = Ret v ->
  [/\ (0 < size X)%N, (size L <= size X)%N & (size L <= size D)%N].
Proof.
rewrite /estimation_cost.
case gX: (getitem X 0) => [X0|//] /=; have [X_gt0 _] := getitem_Ret 0 gX.
case loop: (foldM _ _ _) => [var|//] /=.
case: (trace_inverse var) => [gls|//] /=.
case terms: (mapM _ _) => [ts|//] /= _; split=> //.
  case: (leqP (size L) (size X)) => // lt_XL.
  case: (foldM_fails (a := size X) _ _ loop); first by rewrite mem_range.
  by move=> b b'; rewrite (getitem_nth 0 lt_XL) /= getitem_out.
case: (leqP (size L) (size D)) => // lt_DL.
case: (mapM_fails (a := size D) _ _ terms); first by rewrite mem_range.
by move=> b; rewrite getitem_out.
Qed.

(* The quadratic form of the information matrix is a weighted sum of
   squares. *)
Lemma information_quadratic L X (y : 'rV[R]_d) :
  (y *m information_matrix L X *m y^T) 0 0
  = \sum_(i < size L) nth 0 L i * ((y *m (nth 0 X i)^T) 0 0) ^+ 2.
Proof.
rewrite /information_matrix mulmx_sumr mulmx_suml summxE.
apply: eq_bigr => i _; rewrite /outer -scalemxAr -scalemxAl mxE; congr (_ * _).
rewrite mulmxA -mulmxA -[nth 0 X i *m y^T]trmxK trmx_mul trmxK.
by rewrite [LHS]mxE big_ord1 [X in _ * X]mxE expr2 !(ord1 0).
Qed.

(* The diagonal of the inverse is a value of that quadratic form. *)
Lemma inverse_diagonal L X (j : 'I_d) :
  information_matrix L X \in unitmx ->
  invmx (information_matrix L X) j j
  = (row j (invmx (information_matrix L X)) *m information_matrix L X
       *m (row j (invmx (information_matrix L X)))^T) 0 0.
Proof.
move=> unitM; rewrite -row_mul mulVmx // -row_mul mul1mx.
by rewrite tr_row !mxE.
Qed.

Lemma perturbation_penalty_ge0 L D :
  all (fun l => 0 < l) L -> 0 <= perturbation_penalty L D.
Proof.
move=> L_gt0; apply: sumr_ge0 => i _.
by rewrite divr_ge0 ?sqr_ge0 // ltW // (all_nthP 0 L_gt0).
Qed.

Lemma all_gt0_neq0 L : all (fun l => 0 < l) L -> all (fun l => l != 0) L.
Proof. by apply: sub_all => l /lt0r_neq0. Qed.

(* With positive precisions, data for every agent and an invertible
   information matrix the cost is the finite number of the formula. *)
Lemma estimation_cost_Fin L X D :
  (0 < size L)%N -> size X = size L -> size D = size L ->
  all (fun l => 0 < l) L -> information_matrix L X \in unitmx ->
  estimation_cost L X D = Ret (Fin (spec_estimation_cost L X D)).
Proof.
move=> L_gt0 szX szD posL unitM.
by rewrite estimation_costE ?szX ?szD // unitM all_gt0_neq0.
Qed.

(* ---------------------------------------------------------------------- *)
(* The potential                                                          *)
(* ---------------------------------------------------------------------- *)

Lemma fsum_map_nat (F : nat -> float) (n : nat) :
  fsum [seq F i | i <- range n] = \big[fadd/Fin 0]_(0 <= i < n) F i.
Proof. by rewrite fsumE big_map /range /index_iota subn0. Qed.

Lemma individual_costs L (exps : seq R) :
  (size L <= size exps)%N ->
  mapM (fun i =>
          call Li := getitem L i in
          call ei := getitem exps i in
          Ret (privacy_cost Li ei 1))
       (range (size L))
  = Ret [seq agent_cost L exps i | i <- range (size L)].
Proof.
move=> le_Le; rewrite -mapM_Ret; apply: eq_in_mapM => i.
rewrite mem_range => lt_i.
by rewrite (getitem_nth 0 lt_i) (getitem_nth 0 (leq_trans lt_i le_Le)).
Qed.

Lemma potentialE L X D (exps : seq R) :
  (size L <= size exps)%N ->
  potential L X D exps
  = (call c := estimation_cost L X D in
     Ret (fadd c (\big[fadd/Fin 0]_(0 <= i < size L) agent_cost L exps i))).
Proof.
move=> le_Le; rewrite /potential; case: (estimation_cost L X D) => //= c.
by rewrite individual_costs //= fsum_map_nat faddC.
Qed.

(** C2. potential(L, X, D, exponents) is estimation_cost(L, X, D) plus the
    sum over the agents of privacy_cost(L_i, exponents_i).  When coordinate
    i of L is replaced by v, the privacy cost of every other agent is
    unchanged, and the new potential is the new estimation cost plus agent
    i's new privacy cost plus the other agents' terms at the old L. *)
Theorem potential_separable L X D (exps : seq R) :
  size exps = size L ->
  potential L X D exps
  = (call c := estimation_cost L X D in
     Ret (fadd c (\big[fadd/Fin 0]_(0 <= j < size L)
                     privacy_cost (nth 0 L j) (nth 0 exps j) 1)))
  /\
  forall (i : nat) (v : R), (i < size L)%N ->
    (forall j, j != i ->
       privacy_cost (nth 0 (set_nth 0 L i v) j) (nth 0 exps j) 1
       = privacy_cost (nth 0 L j) (nth 0 exps j) 1)
    /\
    potential (set_nth 0 L i v) X D exps
    = (call c' := estimation_cost (set_nth 0 L i v) X D in
       Ret (fadd c'
              (fadd (privacy_cost v (nth 0 exps i) 1)
                    (\big[fadd/Fin 0]_(0 <= j < size L | j != i)
                        privacy_cost (nth 0 L j) (nth 0 exps j) 1)))).
Proof.
move=> sz_e; split; first by rewrite potentialE ?sz_e.
move=> i v lt_i.
have other j : j != i -> nth 0 (set_nth 0 L i v) j = nth 0 L j.
  by move=> /negbTE ne_ji; rewrite nth_set_nth /= ne_ji.
have sz_L' : size (set_nth 0 L i v) = size L.
  by rewrite size_set_nth; apply/maxn_idPr.
split=> [j /other -> //|].
rewrite potentialE ?sz_L' ?sz_e //.
case: (estimation_cost _ X D) => //= c'; congr (Ret (fadd c' _)).
rewrite (bigD1_seq i) /= ?iota_uniq ?mem_index_iota //.
rewrite /agent_cost nth_set_nth /= eqxx; congr fadd.
by apply: eq_bigr => j /other ->.
Qed.

(* ---------------------------------------------------------------------- *)
(* The equilibrium solver                                                 *)
(* ---------------------------------------------------------------------- *)

(** C3. When covarianceEquilibrium(X, D, exponents) returns the pair
    (c, L), its first component is the estimation cost at the returned
    precision vector: estimation_cost(L, X, D) returns c. *)
Theorem covarianceEquilibrium_cost X D (exps : seq R) (c : float) L :
  covarianceEquilibrium X D exps = Ret (c, L) ->
  estimation_cost L X D = Ret c.
Proof.
rewrite /covarianceEquilibrium; case: (minimize _ _ _ _) => [sol|//] /=.
by case cost: (estimation_cost sol X D) => [c'|//] /= -[<- <-].
Qed.

Lemma lower_le_upper : lower_bound <= upper_bound.
Proof.
rewrite /lower_bound /upper_bound invf_le1 ?exprn_gt0 ?ltr0n //.
by rewrite exprn_ege1 // ler1n.
Qed.

(** C4. With a minimizer that keeps its bounds, every coordinate of the
    precision vector returned by covarianceEquilibrium(X, D, exponents)
    is at least 1e-10 and at most 1, and there is one coordinate per data
    point. *)
Theorem covarianceEquilibrium_bounds X D (exps : seq R) (c : float) L :
  respects_bounds minimize ->
  covarianceEquilibrium X D exps = Ret (c, L) ->
  size L = size X /\ all (fun l => 10%:R ^- 10 <= l <= 1) L.
Proof.
move=> keeps; rewrite /covarianceEquilibrium.
case sol: (minimize _ _ _ _) => [x|//] /=.
case: (estimation_cost x X D) => [c'|//] /= -[_ <-].
have [] := keeps _ _ _ _ _ _ _ sol.
- by rewrite size_map size_nseq /range size_iota.
- by apply/allP => b /mapP [i _ ->] /=; apply: lower_le_upper.
rewrite size_nseq => sz_x inside; split=> //.
apply/(all_nthP 0) => i lt_i; have := inside i lt_i.
rewrite (nth_map 0%N) //.
by rewrite /range size_iota -sz_x.
Qed.

Lemma getitem_map (A B : Type) (f : A -> B) (s : seq A) (i : nat) :
  getitem [seq f a | a <- s] i = (call a := getitem s i in Ret (f a)).
Proof. by rewrite /getitem -map_drop; case: (drop i s). Qed.

Lemma estimation_cost_opp L X D :
  estimation_cost L X [seq - x | x <- D] = estimation_cost L X D.
Proof.
rewrite /estimation_cost; case: (getitem X 0) => //= _.
case: (foldM _ _ _) => //= var; case: (trace_inverse var) => //= gls.
congr bind; apply: eq_in_mapM => i _.
by rewrite getitem_map; case: (getitem D i) => //= Di; rewrite sqrrN.
Qed.

(** C10. estimation_cost(L, X, D) equals estimation_cost(L, X, -D) at every
    L, so that the two potentials are the same function; consequently, a
    minimizer that sees its objective only through its values makes
    covarianceEquilibrium(X, D, exponents) and
    covarianceEquilibrium(X, -D, exponents) return the same result. *)
Theorem perturbation_sign_irrelevant X D (exps : seq R) :
  (forall L, estimation_cost L X D = estimation_cost L X [seq - x | x <- D])
  /\
  (extensional minimize ->
   covarianceEquilibrium X D exps
   = covarianceEquilibrium X [seq - x | x <- D] exps).
Proof.
split=> [L|ext]; first by rewrite estimation_cost_opp.
have same_potential :
  (fun L => potential L X D exps)
  =1 (fun L => potential L X [seq - x | x <- D] exps).
  by move=> L; rewrite /potential estimation_cost_opp.
rewrite /covarianceEquilibrium (ext _ _ _ _ _ same_potential).
case: (minimize _ _ _ _) => //= sol.
by rewrite estimation_cost_opp.
Qed.

(* ---------------------------------------------------------------------- *)
(* The scenario builders                                                  *)
(* ---------------------------------------------------------------------- *)

Lemma basis_vectors : mapM (@e d) (range d) = Ret (standard_basis d).
Proof.
have e_val (i : 'I_d) : e d i = Ret (delta_mx 0 i : 'rV[R]_d).
  rewrite /e ltn_ord; congr Ret.
  by apply/rowP => j; rewrite !mxE eqxx /= -val_eqE; case: eqP.
rewrite /standard_basis -mapM_Ret /range -val_enum_ord.
by elim: (enum 'I_d) => [|i s IH] //=; rewrite IH e_val.
Qed.

Lemma size_standard_basis : size (standard_basis d) = d.
Proof. by rewrite size_map size_enum_ord. Qed.

Lemma nth_standard_basis (i : 'I_d) : nth 0 (standard_basis d) i = delta_mx 0 i.
Proof. by rewrite (nth_map i) ?size_enum_ord // nth_ord_enum. Qed.

Lemma set_nth_nseq_last (a b x0 : R) (n : nat) :
  set_nth x0 (nseq n.+1 a) n b = rcons (nseq n a) b.
Proof. by elim: n => [|n IH] //=; rewrite -IH. Qed.

Lemma set_nth_nseq_cat (a b x0 : R) (n k : nat) (s : seq R) :
  set_nth x0 (nseq n a ++ s) (n + k) b = nseq n a ++ set_nth x0 s k b.
Proof. by elim: n => [|n IH] //=; rewrite IH. Qed.

Lemma setitem_nseq_cat (a b : R) (n k : nat) (s : seq R) :
  setitem (nseq n a ++ s) (n + k) b
  = (call s' := setitem s k b in Ret (nseq n a ++ s')).
Proof.
rewrite /setitem drop_cat size_nseq ltnNge leq_addr /= addKn.
by case: (drop k s) => //= x _; rewrite set_nth_nseq_cat.
Qed.

Lemma ones_times (n : nat) (a : R) : [seq x * a | x <- nseq n 1] = nseq n a.
Proof. by rewrite map_nseq mul1r. Qed.

Lemma scenario_d_plus_1E (delta exps0 exps1 : R) (rest : seq R) :
  scenario_d_plus_1 d delta [:: exps0, exps1 & rest]
  = Ret (rcons (standard_basis d) (d%:R^-1 *: ones d),
         rcons (nseq d (Num.sqrt delta)) (- d%:R * Num.sqrt delta),
         rcons (nseq d exps0) exps1).
Proof.
rewrite /scenario_d_plus_1 basis_vectors.
rewrite -[getitem _ 0]/(Ret exps0) -[getitem _ 1]/(Ret exps1) !bindE.
rewrite (ones_times _ exps0) (ones_times _ (Num.sqrt delta)).
rewrite !(@setitem_set_nth _ 0) ?size_nseq // !bindE !set_nth_nseq_last.
congr (Ret (rcons _ _, _, _)).
by apply/rowP => j; rewrite !mxE mul1r mulr1.
Qed.

(** C8. For d >= 1 and delta >= 0 the builder of the family with d+1
    agents makes X the d standard basis vectors followed by the all-ones
    vector divided by d, D equal to sqrt(delta) on the first d agents and
    to -d*sqrt(delta) on the last one, and the exponents equal to the
    first exponent value except for the last agent, who gets the second;
    and the function hands exactly these to covarianceEquilibrium. *)
Theorem d_plus_1_scenario (delta exps0 exps1 : R) (rest : seq R) :
  (0 < d)%N -> 0 <= delta ->
  let X := rcons (standard_basis d) (d%:R^-1 *: ones d) in
  let D := rcons (nseq d (Num.sqrt delta)) (- d%:R * Num.sqrt delta) in
  let exponents := rcons (nseq d exps0) exps1 in
  [/\ scenario_d_plus_1 d delta [:: exps0, exps1 & rest]
      = Ret (X, D, exponents),
      [/\ size X = d.+1, size D = d.+1 & size exponents = d.+1]
    & compute_costs_and_precisions_d_plus_1 d delta [:: exps0, exps1 & rest]
      = covarianceEquilibrium X D exponents].
Proof.
move=> d_gt0 delta_ge0 X D exponents; split.
- exact: scenario_d_plus_1E.
- by rewrite !size_rcons size_standard_basis !size_nseq.
- by rewrite /compute_costs_and_precisions_d_plus_1 scenario_d_plus_1E.
Qed.

Lemma scenario_d_plus_2E (delta exps0 exps1 : R) (rest : seq R) :
  scenario_d_plus_2 d delta [:: exps0, exps1 & rest]
  = Ret (rcons (rcons (standard_basis d) (ones d)) (ones d),
         nseq d 0 ++ [:: delta; - delta],
         rcons (nseq d.+1 exps0) exps1).
Proof.
rewrite /scenario_d_plus_2 basis_vectors.
rewrite -[getitem _ 0]/(Ret exps0) -[getitem _ 1]/(Ret exps1) !bindE.
rewrite (ones_times _ exps0).
rewrite (@setitem_set_nth _ 0) ?size_nseq // set_nth_nseq_last bindE.
have -> : nseq d.+2 (0 : R) = nseq d 0 ++ [:: 0; 0].
  by elim: d => [|n IH] //=; rewrite -IH.
have -> : setitem (nseq d 0 ++ [:: 0; 0]) d delta
          = Ret (nseq d 0 ++ [:: delta; 0]).
  by rewrite -[X in setitem _ X _]addn0 setitem_nseq_cat.
rewrite bindE.
have -> : setitem (nseq d 0 ++ [:: delta; 0]) d.+1 (- delta)
          = Ret (nseq d 0 ++ [:: delta; - delta]).
  by rewrite -[X in setitem _ X _]addn1 setitem_nseq_cat.
by [].
Qed.

(** C9. For d >= 1 and delta >= 0 the builder of the family with d+2
    agents makes X the d standard basis vectors followed by two copies of
    the all-ones vector, and a perturbation vector that is zero except
    +delta on agent d and -delta on agent d+1; this vector is delta times
    the vector (0, ..., 0, 1, -1): linear in delta, with no square root;
    and the function hands exactly these to covarianceEquilibrium. *)
Theorem d_plus_2_scenario (delta exps0 exps1 : R) (rest : seq R) :
  (0 < d)%N -> 0 <= delta ->
  let X := rcons (rcons (standard_basis d) (ones d)) (ones d) in
  let D := nseq d 0 ++ [:: delta; - delta] in
  let exponents := rcons (nseq d.+1 exps0) exps1 in
  [/\ scenario_d_plus_2 d delta [:: exps0, exps1 & rest]
      = Ret (X, D, exponents),
      [/\ size D = d.+2, forall i, (i < d)%N -> nth 0 D i = 0,
          nth 0 D d = delta & nth 0 D d.+1 = - delta],
      D = [seq delta * x | x <- nseq d 0 ++ [:: 1; -1]]
    & compute_costs_and_precisions d delta [:: exps0, exps1 & rest]
      = covarianceEquilibrium X D exponents].
Proof.
move=> d_gt0 delta_ge0 X D exponents; split.
- exact: scenario_d_plus_2E.
- split.
  + by rewrite size_cat size_nseq /= addn2.
  + by move=> i lt_i; rewrite nth_cat size_nseq lt_i nth_nseq lt_i.
  + by rewrite nth_cat size_nseq ltnn subnn.
  + by rewrite nth_cat size_nseq ltnNge leqnSn /= subSnn.
- by rewrite map_cat map_nseq /= mulr0 mulr1 mulrN1.
- by rewrite /compute_costs_and_precisions scenario_d_plus_2E.
Qed.

End CostLemmas.

(* ---------------------------------------------------------------------- *)
(* The sweep driver                                                       *)
(* ---------------------------------------------------------------------- *)

Lemma size_linspace (start stop : R) (num : nat) :
  size (linspace start stop num) = num.
Proof.
rewrite /linspace; case: ifP => [num_gt1|_]; last first.
  by rewrite size_map /range size_iota.
rewrite size_set_nth size_map /range size_iota prednK ?(ltn_trans _ num_gt1) //.
exact: maxnn.
Qed.

Lemma nth_linspace (start stop : R) (num i : nat) :
  (i < num)%N ->
  nth 0 (linspace start stop num) i
  = if (1 < num)%N && (i == num.-1) then stop
    else i%:R * ((stop - start) / (num.-1)%:R) + start.
Proof.
move=> lt_i; rewrite /linspace.
have nth_y : nth 0 [seq j%:R * ((stop - start) / (num.-1)%:R) + start
                   | j <- range num] i
             = i%:R * ((stop - start) / (num.-1)%:R) + start.
  by rewrite (nth_map 0%N) /range ?size_iota // nth_iota.
case: ifP => [num_gt1|_] //=; rewrite nth_set_nth /=.
by case: ifP.
Qed.

Lemma nth_linspace0 (stop : R) (num i : nat) :
  (i < num)%N ->
  nth 0 (linspace 0 stop num) i = i%:R * (stop / (num.-1)%:R).
Proof.
move=> lt_i; rewrite nth_linspace // subr0 addr0.
case: ifP => // /andP [num_gt1 /eqP ->].
rewrite mulrC divfK // pnatr_eq0 -lt0n.
by rewrite -subn1 subn_gt0.
Qed.

(** C7. For a maximal magnitude deltaMax >= 0 and an example number,
    compute_for_example sweeps exactly 100 magnitudes, evenly spaced
    (the i-th is i * deltaMax / 99), none negative, the first 0 and the
    last deltaMax; when it returns, it returns these magnitudes and, for
    each of them in order, the cost and the precision vector that
    covarianceEquilibrium returns on the example's X and exponents with the
    perturbation sqrt(delta) * D; and it returns as soon as each of these
    100 solves returns. *)
Theorem compute_for_example_sweep (deltaMax : R) (example_number : int) :
  0 <= deltaMax ->
  let X := X_1D_examples example_number in
  let E := exponents_1D_examples example_number in
  let D := perturbation_matrix_1Dexamples example_number in
  let deltas := linspace 0 deltaMax 100 in
  let solve := fun delta =>
    covarianceEquilibrium X [seq Num.sqrt delta * x | x <- D] E in
  [/\ size deltas = 100%N,
      forall i, (i < 100)%N ->
        nth 0 deltas i = i%:R * (deltaMax / 99%:R) /\ 0 <= nth 0 deltas i,
      nth 0 deltas 0 = 0 /\ nth 0 deltas 99 = deltaMax,
      forall ds cs ps,
        compute_for_example deltaMax example_number = Ret (ds, cs, ps) ->
        [/\ ds = deltas, size cs = 100%N, size ps = 100%N
          & forall i, (i < 100)%N ->
              solve (nth 0 deltas i) = Ret (nth NonFin cs i, nth [::] ps i)]
    & (forall i, (i < 100)%N -> exists r, solve (nth 0 deltas i) = Ret r) ->
      exists ds cs ps,
        compute_for_example deltaMax example_number = Ret (ds, cs, ps)].
Proof.
move=> dM_ge0 X E D deltas solve.
have sz_deltas : size deltas = 100%N by apply: size_linspace.
have nth_deltas i : (i < 100)%N -> nth 0 deltas i = i%:R * (deltaMax / 99%:R).
  by move=> lt_i; rewrite /deltas nth_linspace0.
split=> //.
- move=> i lt_i; rewrite nth_deltas //; split=> //.
  by rewrite mulr_ge0 ?ler0n // divr_ge0 ?ler0n.
- rewrite !nth_deltas // mul0r; split=> //.
  by rewrite mulrC divfK // pnatr_eq0.
- move=> ds cs ps; rewrite /compute_for_example -/X -/E -/D -/deltas -/solve.
  case sweep: (mapM solve deltas) => [cps|//] /= -[<- <- <-].
  have [sz_cps nth_cps] := mapM_inv sweep.
  rewrite !size_map sz_cps sz_deltas; split=> // i lt_i.
  rewrite (nth_cps 0 (NonFin, [::])) ?sz_deltas //.
  rewrite !(nth_map (NonFin, [::])) ?sz_cps ?sz_deltas //.
  by case: (nth _ cps i).
- move=> returns; rewrite /compute_for_example -/X -/E -/D -/deltas -/solve.
  have [cps ->] : exists cps, mapM solve deltas = Ret cps.
    apply: mapM_total => delta /(nthP 0) [i].
    by rewrite sz_deltas => lt_i <-; apply: returns.
  by exists deltas, [seq cp.1 | cp <- cps], [seq cp.2 | cp <- cps].
Qed.

(* ---------------------------------------------------------------------- *)
(* Concrete points: one-dimensional data and the projecting minimizer     *)
(* ---------------------------------------------------------------------- *)

(* In dimension 1 the information matrix is a number. *)
Lemma information_matrix_1D (L : seq R) (X : seq 'rV[R]_1) :
  (information_matrix L X \in unitmx)
  = (\sum_(i < size L) nth 0 L i * (nth 0 X i 0 0) ^+ 2 != 0).
Proof.
rewrite unitmxE det_mx11 unitfE summxE; congr (_ != 0).
by apply: eq_bigr => i _; rewrite /outer !mxE big_ord1 !mxE expr2.
Qed.

Lemma one_agent_unit :
  information_matrix [:: 1] [:: (const_mx 1 : 'rV[R]_1)] \in unitmx.
Proof.
rewrite information_matrix_1D big_ord_recl big_ord0 /= mxE.
by rewrite expr1n mulr1 addr0 oner_neq0.
Qed.

Lemma projected_start_bounds : respects_bounds projected_start.
Proof.
move=> f x0 bnds tol x sz_b feasible [<-].
have sz : size [seq Num.max xb.2.1 (Num.min xb.2.2 xb.1) | xb <- zip x0 bnds]
          = size x0.
  by rewrite size_map size_zip sz_b minnn.
split=> // i; rewrite sz => lt_i.
rewrite (nth_map (0, (0, 0))) ?size_zip ?sz_b ?minnn // nth_zip //=.
have := all_nthP (0, 0) feasible i; rewrite sz_b => /(_ lt_i).
case: (nth (0, 0) bnds i) => lo hi /= lo_hi.
rewrite le_max lexx /= ge_max lo_hi /=.
by rewrite ge_min lexx.
Qed.

Lemma projected_start_extensional : extensional projected_start.
Proof. by []. Qed.

Lemma projected_start_ones (f : seq R -> result float) (n : nat) (tol : R) :
  projected_start f (nseq n 1)
    [seq (lower_bound, upper_bound) | i <- range n] tol
  = Ret (nseq n 1).
Proof.
rewrite /projected_start; congr Ret.
apply: (@eq_from_nth _ 0).
  by rewrite size_map size_zip size_map size_nseq /range size_iota minnn.
move=> i; rewrite size_map size_zip size_map size_nseq /range size_iota minnn.
move=> lt_i.
rewrite (nth_map (0, (0, 0))) ?size_zip ?size_map ?size_nseq ?size_iota ?minnn //.
rewrite nth_zip ?size_map ?size_nseq ?size_iota //=.
rewrite (nth_map 0%N) ?size_iota // !nth_nseq lt_i /=.
by rewrite /upper_bound minxx; apply/max_idPr/lower_le_upper.
Qed.

(* ---------------------------------------------------------------------- *)
(* Outcomes of the cost functions on every input                          *)
(* ---------------------------------------------------------------------- *)

Section Raises.

Variables (A : eqType) (B : Type).

Lemma getitem_raises (T : Type) (s : seq T) (i : nat) (e0 : exn) :
  getitem s i = Raise e0 -> e0 = IndexError.
Proof. by rewrite /getitem; case: (drop i s) => // -[]. Qed.

Lemma foldM_raises (f : B -> A -> result B) (acc : B) (s : seq A) (e0 e1 : exn) :
  (forall b a e', f b a = Raise e' -> e' = e0) ->
  foldM f acc s = Raise e1 -> e1 = e0.
Proof.
move=> only; elim: s acc => [|a s IH] //= acc.
by case fa: (f acc a) => [b|e'] /=; [apply: IH | case=> <-; apply: only fa].
Qed.

Lemma mapM_raises (f : A -> result B) (s : seq A) (e0 e1 : exn) :
  (forall a e', f a = Raise e' -> e' = e0) ->
  mapM f s = Raise e1 -> e1 = e0.
Proof.
move=> only; elim: s => [|a s IH] //=.
case fa: (f a) => [b|e'] /=; last by case=> <-; apply: only fa.
by case: (mapM f s) IH => [bs|e'] //= IH [<-]; apply: IH.
Qed.

End Raises.

Section Outcomes.

Variable d : nat.
Implicit Types (L D : seq R) (X : seq 'rV[R]_d).

Lemma individual_costs_short L (exps : seq R) :
  (size exps < size L)%N ->
  mapM (fun i =>
          call Li := getitem L i in
          call ei := getitem exps i in
          Ret (privacy_cost Li ei 1))
       (range (size L))
  = Raise IndexError.
Proof.
move=> lt_eL; case costs: (mapM _ _) => [cs|e1].
  case: (mapM_fails (a := size exps) _ _ costs); first by rewrite mem_range.
  by move=> b; rewrite (getitem_nth 0 lt_eL) /= getitem_out.
congr Raise; apply: mapM_raises costs => i e'.
case gL: (getitem L i) => [Li|e2] /=; last by case=> <-; apply: getitem_raises gL.
by case ge: (getitem exps i) => [ei|e2] //= -[<-]; apply: getitem_raises ge.
Qed.

(** X2. The outcome of potential on every input: an exception of
    estimation_cost goes through unchanged; when estimation_cost returns
    and there are fewer exponents than precisions, potential raises
    IndexError; otherwise it returns the sum of the agents' privacy costs
    plus the estimation cost. *)
Theorem potential_outcome L X D (exps : seq R) :
  potential L X D exps
  = match estimation_cost L X D with
    | Raise e0 => Raise e0
    | Ret c =>
        if (size exps < size L)%N then Raise IndexError
        else Ret (fadd (\big[fadd/Fin 0]_(0 <= i < size L)
                           privacy_cost (nth 0 L i) (nth 0 exps i) 1) c)
    end.
Proof.
rewrite /potential; case: (estimation_cost L X D) => //= c.
case: (ltnP (size exps) (size L)) => [lt_eL|le_Le].
  by rewrite individual_costs_short.
by rewrite individual_costs //= fsum_map_nat.
Qed.

End Outcomes.

(* ---------------------------------------------------------------------- *)
(* Data points that span R^d: the idealised cost is defined               *)
(* ---------------------------------------------------------------------- *)

Section Geometry.

Variable d : nat.
Implicit Types (L D : seq R) (X : seq 'rV[R]_d).

(* A direction orthogonal to the data points of all agents is in the
   kernel of the information matrix. *)
Lemma orthogonal_kernel L X (y : 'rV[R]_d) :
  (forall i, (i < size L)%N -> (y *m (nth 0 X i)^T) 0 0 = 0) ->
  y *m information_matrix L X = 0.
Proof.
move=> orth; rewrite /information_matrix mulmx_sumr big1 // => i _.
rewrite /outer -scalemxAr mulmxA.
have -> : y *m (nth 0 X i)^T = 0.
  by apply/matrixP => j k; rewrite !ord1 orth // mxE.
by rewrite mul0mx scaler0.
Qed.

(* With positive precisions the kernel holds nothing else. *)
Lemma kernel_orthogonal L X (y : 'rV[R]_d) :
  all (fun l => 0 < l) L -> y *m information_matrix L X = 0 ->
  forall i, (i < size L)%N -> (y *m (nth 0 X i)^T) 0 0 = 0.
Proof.
move=> posL yM i lt_i.
have /psumr_eq0P zero_terms :
    \sum_(j < size L) nth 0 L j * ((y *m (nth 0 X j)^T) 0 0) ^+ 2 = 0.
  by rewrite -information_quadratic yM mul0mx mxE.
have /eqP := zero_terms (fun j _ =>
  mulr_ge0 (ltW (all_nthP 0 posL j (ltn_ord j))) (sqr_ge0 _)) (Ordinal lt_i) isT.
rewrite mulf_eq0 sqrf_eq0 /= (negbTE (lt0r_neq0 (all_nthP 0 posL i lt_i))) /=.
by move/eqP.
Qed.

Lemma information_matrix_unit L X :
  all (fun l => 0 < l) L -> size X = size L -> spanning X ->
  information_matrix L X \in unitmx.
Proof.
move=> posL szX span; rewrite -row_free_unit -kermx_eq0.
apply/eqP/row_matrixP => i; rewrite row0; apply: span => j; rewrite szX.
by apply: kernel_orthogonal => //; rewrite -row_mul mulmx_ker row0.
Qed.

Lemma orthogonal_singular L X (y : 'rV[R]_d) :
  y != 0 ->
  (forall i, (i < size L)%N -> (y *m (nth 0 X i)^T) 0 0 = 0) ->
  information_matrix L X \notin unitmx.
Proof.
move=> y_neq0 /orthogonal_kernel yM; apply: contra y_neq0 => unitM.
by rewrite -[y](mulmxK unitM) yM mul0mx.
Qed.

(* In dimension d >= 1 the trace of the inverse is strictly positive. *)
Lemma trace_inverse_gt0 L X :
  (0 < d)%N -> all (fun l => 0 < l) L ->
  information_matrix L X \in unitmx ->
  0 < \tr (invmx (information_matrix L X)).
Proof.
move=> d_gt0 posL unitM; pose j := Ordinal d_gt0.
have diag_ge0 k : 0 <= invmx (information_matrix L X) k k.
  rewrite inverse_diagonal // information_quadratic; apply: sumr_ge0 => i _.
  by rewrite mulr_ge0 ?sqr_ge0 // ltW // (all_nthP 0 posL).
rewrite /mxtrace (bigD1 j) //=; apply: ltr_pwDl; last exact: sumr_ge0.
rewrite lt_neqAle diag_ge0 andbT eq_sym; apply/eqP => diag0.
set y := row j (invmx (information_matrix L X)).
have yM : y *m information_matrix L X = delta_mx 0 j.
  by rewrite -row_mul mulVmx // row1.
have quad0 : \sum_(i < size L) nth 0 L i * ((y *m (nth 0 X i)^T) 0 0) ^+ 2 = 0.
  by rewrite -information_quadratic -inverse_diagonal.
have orth i : (i < size L)%N -> (y *m (nth 0 X i)^T) 0 0 = 0.
  move=> lt_i.
  have /psumr_eq0P zero_terms := quad0.
  have /eqP := zero_terms (fun k _ =>
    mulr_ge0 (ltW (all_nthP 0 posL k (ltn_ord k))) (sqr_ge0 _))
    (Ordinal lt_i) isT.
  rewrite mulf_eq0 sqrf_eq0 /= (negbTE (lt0r_neq0 (all_nthP 0 posL i lt_i))).
  by move/eqP.
have /matrixP /(_ 0 j) := etrans (esym yM) (orthogonal_kernel orth).
by rewrite !mxE !eqxx /= => /eqP; rewrite oner_eq0.
Qed.

(* The cost on positive precisions and an invertible information matrix,
   in dimension d >= 1. *)
Lemma estimation_cost_gt0 L X D :
  (0 < d)%N -> size X = size L -> (size L <= size D)%N ->
  all (fun l => 0 < l) L -> information_matrix L X \in unitmx ->
  estimation_cost L X D = Ret (Fin (spec_estimation_cost L X D))
  /\ 0 < spec_estimation_cost L X D.
Proof.
move=> d_gt0 szX le_LD posL unitM.
have L_gt0 : (0 < size L)%N.
  rewrite lt0n; apply/eqP => L0; move: unitM; apply/negP.
  apply: (@orthogonal_singular _ _ (delta_mx 0 (Ordinal d_gt0))).
    by apply/eqP => /matrixP /(_ 0 (Ordinal d_gt0)) /eqP;
       rewrite !mxE !eqxx /= oner_eq0.
  by move=> i; rewrite L0.
split.
  by rewrite estimation_costE ?szX // unitM all_gt0_neq0.
by apply: ltr_pwDl; [apply: trace_inverse_gt0 | apply: perturbation_penalty_ge0].
Qed.

End Geometry.

(* ---------------------------------------------------------------------- *)
(* The solver and the builders, end to end                                *)
(* ---------------------------------------------------------------------- *)

Lemma mapM_Raise_inv (A : eqType) (B : Type) (f : A -> result B) (s : seq A)
  (e0 : exn) :
  mapM f s = Raise e0 -> exists2 a, a \in s & f a = Raise e0.
Proof.
elim: s => [|a s IH] //=; case fa: (f a) => [b|e1] /=; last first.
  by case=> <-; exists a; rewrite ?mem_head.
case ms: (mapM f s) IH => [bs|e1] //= IH eq_e.
by have [c c_s fc] := IH eq_e; exists c; rewrite // inE c_s orbT.
Qed.

Section Solver.

Variable d : nat.
Implicit Types (L D : seq R) (X : seq 'rV[R]_d).

(* The call that covarianceEquilibrium makes to the minimizer. *)
Local Notation solve X D exps :=
  (minimize (fun L => potential L X D exps) (nseq (size X) 1)
     [seq (lower_bound, upper_bound) | i <- range (size X)] tolerance).

Lemma covarianceEquilibrium_run X D (exps : seq R) :
  covarianceEquilibrium X D exps
  = (call x := solve X D exps in
     call c := estimation_cost x X D in Ret (c, x)).
Proof. by []. Qed.

Lemma covarianceEquilibrium_inv X D (exps : seq R) (c : float) (x : seq R) :
  covarianceEquilibrium X D exps = Ret (c, x) ->
  solve X D exps = Ret x /\ estimation_cost x X D = Ret c.
Proof.
rewrite covarianceEquilibrium_run; case: (solve X D exps) => [x'|//] /=.
by case cost: (estimation_cost x' X D) => [c'|//] /= -[<- <-].
Qed.

(** X8. Whatever the minimizer does, when covarianceEquilibrium returns
    (c, x) there is at least one data point, x is what the minimizer
    returned for the potential started at the all-ones vector with the
    bounds [1e-10, 1], and x is not longer than X nor than D; in
    particular it never returns on an empty X. *)
Theorem covarianceEquilibrium_returns X D (exps : seq R) (c : float)
  (x : seq R) :
  covarianceEquilibrium X D exps = Ret (c, x) ->
  [/\ (0 < size X)%N,
      minimize (fun L => potential L X D exps) (nseq (size X) 1)
        [seq (lower_bound, upper_bound) | i <- range (size X)] tolerance
      = Ret x,
      (size x <= size X)%N
    & (size x <= size D)%N].
Proof.
move=> /covarianceEquilibrium_inv [sol cost].
by have [X_gt0 le_xX le_xD] := estimation_cost_sizes cost; split.
Qed.

(* The standard basis, followed by anything, spans. *)
Lemma spanning_basis (rest : seq 'rV[R]_d) :
  spanning (standard_basis d ++ rest).
Proof.
move=> y orth; apply/rowP => j; rewrite [RHS]mxE.
have := orth j; rewrite size_cat size_standard_basis nth_cat.
rewrite size_standard_basis ltn_ord nth_standard_basis => <-.
  exact: ltn_addr.
rewrite trmx_delta mxE (bigD1 j) //= mxE !eqxx mulr1 big1 ?addr0 //.
by move=> k ne_kj; rewrite mxE (negbTE ne_kj) mulr0.
Qed.

Lemma scenario_short (delta : R) (exps : seq R) :
  (size exps < 2)%N ->
  scenario_d_plus_1 d delta exps = Raise IndexError
  /\ scenario_d_plus_2 d delta exps = Raise IndexError.
Proof.
rewrite /scenario_d_plus_1 /scenario_d_plus_2 basis_vectors !bindE.
by case: exps => [|a [|b rest]].
Qed.

(** X10. Both d-dimensional builders need two exponent values: called with
    fewer than two, compute_costs_and_precisions_d_plus_1 and
    compute_costs_and_precisions raise IndexError, for every dimension and
    magnitude and before the minimizer is called. *)
Theorem builders_need_two_exponents (delta : R) (exps : seq R) :
  (size exps < 2)%N ->
  compute_costs_and_precisions_d_plus_1 d delta exps = Raise IndexError
  /\ compute_costs_and_precisions d delta exps = Raise IndexError.
Proof.
move=> /(scenario_short delta) [short1 short2].
by rewrite /compute_costs_and_precisions_d_plus_1
           /compute_costs_and_precisions short1 short2.
Qed.

Lemma spanning_d_plus_1 : spanning (rcons (standard_basis d) (d%:R^-1 *: ones d)).
Proof. by rewrite -cats1; apply: spanning_basis. Qed.

(** X13. The correction of the family with d+2 agents is unbiased too:
    whenever its builder returns X, D and the exponents, each of the three
    has d+2 entries and the net bias sum_i D_i * X_i is the zero vector
    (+delta and -delta meet the same all-ones data point). *)
Theorem d_plus_2_unbiased (delta : R) (exps : seq R) X D (E : seq R) :
  scenario_d_plus_2 d delta exps = Ret (X, D, E) ->
  [/\ size X = d.+2, size D = d.+2, size E = d.+2 & net_bias X D = 0].
Proof.
case: exps => [|exps0 [|exps1 rest]]; rewrite ?scenario_d_plus_2E.
- by have [_ ->] := @scenario_short delta [::] isT.
- by have [_ ->] := @scenario_short delta [:: exps0] isT.
case=> <- <- <-; split.
- by rewrite !size_rcons size_standard_basis.
- by rewrite size_cat size_nseq /= addn2.
- by rewrite /= size_rcons size_nseq.
rewrite /net_bias !size_rcons size_standard_basis !big_nat_recr //=.
rewrite big1_seq.
  move=> i /andP [_]; rewrite mem_index_iota => /andP [_ lt_i].
  by rewrite nth_cat size_nseq lt_i nth_nseq lt_i scale0r.
rewrite !nth_cat size_nseq ltnn subnn ltnNge leqnSn /= subSnn /=.
have -> : nth 0 (rcons (rcons (standard_basis d) (ones d)) (ones d)) d
          = ones d.
  rewrite nth_rcons size_rcons size_standard_basis ltnSn.
  by rewrite nth_rcons size_standard_basis ltnn eqxx.
have -> : nth 0 (rcons (rcons (standard_basis d) (ones d)) (ones d)) d.+1
          = ones d.
  by rewrite nth_rcons size_rcons size_standard_basis ltnn eqxx.
by rewrite add0r scaleNr addrN.
Qed.

End Solver.

(* ---------------------------------------------------------------------- *)
(* The one-dimensional examples, end to end                               *)
(* ---------------------------------------------------------------------- *)

Lemma size_1D_examples (example_number : int) :
  size (perturbation_matrix_1Dexamples example_number)
  = size (X_1D_examples example_number)
  /\ size (exponents_1D_examples example_number)
     = size (X_1D_examples example_number).
Proof.
rewrite /perturbation_matrix_1Dexamples /exponents_1D_examples /X_1D_examples.
by case: ifP.
Qed.

Lemma nth_X_1D_examples (example_number : int) (i : nat) :
  (i < size (X_1D_examples example_number))%N ->
  nth 0 (X_1D_examples example_number) i = const_mx 1.
Proof.
rewrite /X_1D_examples; case: ifP => _.
  by case: i => [|[|i]].
by case: i => [|[|[|[|i]]]].
Qed.

Lemma spanning_1D_examples (example_number : int) :
  spanning (X_1D_examples example_number).
Proof.
move=> y orth; apply/rowP => j; rewrite !ord1 [RHS]mxE.
have X_gt0 : (0 < size (X_1D_examples example_number))%N.
  by rewrite /X_1D_examples; case: ifP.
have := orth 0%N X_gt0; rewrite nth_X_1D_examples // => <-.
by rewrite mxE big_ord1 !mxE mulr1 !ord1.
Qed.

(** X14. The correction of the one-dimensional examples is unbiased at
    every magnitude delta >= 0, as the docstring of
    perturbation_matrix_1Dexamples says: for every example number, X, D and
    the exponents have the same length, every exponent is greater than 1,
    and the net bias sum_i (sqrt(delta) * D_i) * X_i is zero. *)
Theorem one_dim_examples_unbiased (example_number : int) (delta : R) :
  0 <= delta ->
  let X := X_1D_examples example_number in
  let E := exponents_1D_examples example_number in
  let D := perturbation_matrix_1Dexamples example_number in
  [/\ size D = size X, size E = size X, all (fun a => 1 < a) E
    & net_bias X [seq Num.sqrt delta * x | x <- D] = 0].
Proof.
move=> delta_ge0.
have [szD szE] := size_1D_examples example_number.
have lt1 (m n : nat) : (n < m)%N -> (0 < n)%N -> 1 < m%:R / n%:R :> R.
  by move=> lt_nm n_gt0; rewrite ltr_pdivlMr ?ltr0n // mul1r ltr_nat.
split=> //.
  rewrite /exponents_1D_examples; case: ifP => _ /=.
    by rewrite lt1 // -[1]/(1%:R) ltr_nat.
  by rewrite !lt1.
rewrite /net_bias /X_1D_examples /perturbation_matrix_1Dexamples.
case: ifP => _; rewrite /index_iota /= !big_cons big_nil /=.
  by rewrite mulr1 mulrN1 scaleNr addr0 addrN.
by rewrite mulr1 mulrN1 mulr0 scaleNr scale0r !addr0 addrN.
Qed.

(* ---------------------------------------------------------------------- *)
(* The cached sweeps                                                      *)
(* ---------------------------------------------------------------------- *)

Lemma key_eqbP (k1 k2 : key) : reflect (k1 = k2) (key_eqb k1 k2).
Proof.
case: k1 k2 => [m|m s] [n|n t] /=; try by constructor.
  by apply: (iffP eqP) => [->|[]].
apply: (iffP andP) => [[/eqP -> /String.eqb_eq ->]|[-> ->]] //.
by rewrite eqxx String.eqb_refl.
Qed.

Lemma key_eqb_refl (k : key) : key_eqb k k.
Proof. exact/key_eqbP. Qed.

Section Cache.

Variable key_of : nat -> key.
Variable family : nat -> R -> seq R -> result (float * seq R).
Implicit Types (datas : cache) (todo : seq (nat * result R)).

Lemma contains_lookup datas (k : key) :
  contains datas k = isSome (lookup datas k).
Proof.
rewrite /contains /lookup; elim: datas => [|kv datas IH] //=.
by case: ifP.
Qed.

Lemma lookup_rcons datas (k k' : key) (v : sweep) :
  lookup (rcons datas (k, v)) k'
  = if lookup datas k' is Some w then Some w
    else if key_eqb k k' then Some v else None.
Proof.
rewrite /lookup filter_rcons /=.
by case: ifP => _; case: (filter _ datas).
Qed.

Lemma lookup_store_absent datas (k k' : key) (v : sweep) :
  ~~ contains datas k ->
  lookup (store datas k v) k'
  = if lookup datas k' is Some w then Some w
    else if key_eqb k k' then Some v else None.
Proof. by move=> /negbTE absent; rewrite /store absent lookup_rcons. Qed.

(* What is stored is never replaced, also when a sweep raises. *)
Lemma cached_sweeps_keep todo datas (k : key) (v : sweep) :
  lookup datas k = Some v ->
  lookup (cached_sweeps key_of family todo datas).1 k = Some v.
Proof.
elim: todo datas => [|[dim dmax] todo IH] datas //= stored.
case: ifPn => [_|absent]; first exact: IH.
case: (call dm := dmax in _) => [w|e0] //=.
by apply: IH; rewrite lookup_store_absent // stored.
Qed.

Lemma cached_sweeps_contains todo datas (k : key) :
  contains datas k -> contains (cached_sweeps key_of family todo datas).1 k.
Proof.
rewrite !contains_lookup; case stored: (lookup datas k) => [v|//] _.
by rewrite (cached_sweeps_keep todo stored).
Qed.

(* A new entry has the key of one of the dims of the loop. *)
Lemma cached_sweeps_new todo datas (k : key) :
  lookup datas k = None ->
  lookup (cached_sweeps key_of family todo datas).1 k ->
  has (fun t => key_eqb (key_of t.1) k) todo.
Proof.
elim: todo datas => [|[dim dmax] todo IH] datas /= absent_k.
  by rewrite absent_k.
case: ifPn => [_|absent]; first by move=> /(IH _ absent_k) ->; rewrite orbT.
case: (call dm := dmax in _) => [w|e0] /=; last by rewrite absent_k.
case same: (key_eqb (key_of dim) k) => //= new.
by apply: IH new; rewrite lookup_store_absent // absent_k same.
Qed.

Lemma has_key todo (k : key) :
  has (fun t => key_eqb (key_of t.1) k) todo ->
  exists2 dim, dim \in [seq t.1 | t <- todo] & k = key_of dim.
Proof.
elim: todo => [|[dim dmax] todo IH] //=.
case: key_eqbP => [<- _|_ /= /IH [x x_in ->]].
  by exists dim; rewrite ?mem_head.
by exists x; rewrite // inE x_in orbT.
Qed.

(* A loop that ends without exception leaves an entry for each dim. *)
Lemma cached_sweeps_all todo datas :
  (cached_sweeps key_of family todo datas).2 = Ret tt ->
  all (fun t => contains (cached_sweeps key_of family todo datas).1
                  (key_of t.1)) todo.
Proof.
elim: todo datas => [|[dim dmax] todo IH] datas //=.
case: ifPn => [present|absent].
  by move=> /IH ->; rewrite andbT; apply: cached_sweeps_contains.
case: (call dm := dmax in _) => [w|e0] //= /IH ->; rewrite andbT.
apply: cached_sweeps_contains.
by rewrite contains_lookup lookup_store_absent //; case: (lookup datas _);
   rewrite // key_eqb_refl.
Qed.

(* When every dim has its entry, nothing is computed. *)
Lemma cached_sweeps_hit todo datas :
  all (fun t => contains datas (key_of t.1)) todo ->
  cached_sweeps key_of family todo datas = (datas, Ret tt).
Proof.
by elim: todo => [|[dim dmax] todo IH] //= /andP [-> /IH].
Qed.

End Cache.

(** X17. The two cached loops never replace what the dictionary holds: an
    entry that datas has before a loop is there, with the same value,
    after it, also when one of the sweeps raises. *)
Theorem cached_entries_kept (datas : cache) (k : key) (v : sweep) :
  lookup datas k = Some v ->
  lookup (sweep_d_plus_1_cell datas).1 k = Some v
  /\ lookup (sweep_d_plus_2_cell datas).1 k = Some v.
Proof. by move=> stored; split; apply: cached_sweeps_keep. Qed.

(** X18. Each cached loop adds entries under its own keys only: a key
    that is absent before and present after the loop of the family with
    d+1 agents is (dim, 'd+1 example'), and one added by the loop of the
    family with d+2 agents is dim, with dim among 2, 5, 10, 15. *)
Theorem cached_loops_own_keys (datas : cache) (k : key) :
  lookup datas k = None ->
  (lookup (sweep_d_plus_1_cell datas).1 k ->
   exists2 dim, dim \in [:: 2; 5; 10; 15]%N & k = DimTag dim "d+1 example")
  /\
  (lookup (sweep_d_plus_2_cell datas).1 k ->
   exists2 dim, dim \in [:: 2; 5; 10; 15]%N & k = Dim dim).
Proof.
move=> absent.
by split=> /(cached_sweeps_new absent) /has_key [dim dim_in ->]; exists dim.
Qed.

(** X19. A cached loop that ends without exception leaves an entry for
    each of the four dimensions, and running it again changes nothing and
    solves nothing: on a dictionary that holds the four entries the loop
    returns the dictionary as it is, whatever the minimizer is. *)
Theorem cached_loops_complete (datas : cache) :
  ((sweep_d_plus_1_cell datas).2 = Ret tt ->
   all (fun dim => contains (sweep_d_plus_1_cell datas).1
                     (DimTag dim "d+1 example")) [:: 2; 5; 10; 15]%N
   /\ sweep_d_plus_1_cell (sweep_d_plus_1_cell datas).1
      = ((sweep_d_plus_1_cell datas).1, Ret tt))
  /\
  ((sweep_d_plus_2_cell datas).2 = Ret tt ->
   all (fun dim => contains (sweep_d_plus_2_cell datas).1 (Dim dim))
       [:: 2; 5; 10; 15]%N
   /\ sweep_d_plus_2_cell (sweep_d_plus_2_cell datas).1
      = ((sweep_d_plus_2_cell datas).1, Ret tt)).
Proof.
split=> /cached_sweeps_all /= /and5P [in2 in5 in10 in15 _].
  split; first by rewrite in2 in5 in10 in15.
  by apply: cached_sweeps_hit; rewrite /= in2 in5 in10 in15.
split; first by rewrite in2 in5 in10 in15.
by apply: cached_sweeps_hit; rewrite /= in2 in5 in10 in15.
Qed.

(* An exception of a cached loop is the exception of the sweep of one of
   its dims, whose key the dictionary did not hold. *)
Lemma cached_sweeps_raise (key_of : nat -> key)
  (family : nat -> R -> seq R -> result (float * seq R))
  (todo : seq (nat * result R)) (datas : cache) (e0 : exn) :
  (cached_sweeps key_of family todo datas).2 = Raise e0 ->
  exists i,
    [/\ (i < size todo)%N,
        ~~ contains datas (key_of (nth (0%N, Raise IndexError) todo i).1)
      & (call dmax := (nth (0%N, Raise IndexError) todo i).2 in
         family_sweep family (nth (0%N, Raise IndexError) todo i).1 dmax)
        = Raise e0].
Proof.
elim: todo datas => [|[dim dmax] todo IH] datas //=.
case: ifPn => [_ /IH [i [lt_i absent raised]]|absent]; first by exists i.+1.
case first: (call dm := dmax in _) => [w|e1] /=; last first.
  by case=> <-; exists 0%N.
move=> /IH [i [lt_i absent_i raised]]; exists i.+1; split=> //.
apply: contra absent_i; rewrite /store (negbTE absent) /contains has_rcons.
by move=> ->; rewrite orbT.
Qed.

(* An exception of a sweep is the exception of the solve at one of its
   magnitudes. *)
Lemma family_sweep_raise
  (family : nat -> R -> seq R -> result (float * seq R)) (dim : nat)
  (deltaMax : R) (e0 : exn) :
  family_sweep family dim deltaMax = Raise e0 ->
  exists2 delta, delta \in linspace 0 deltaMax 100
               & family dim delta [:: 20%:R; 3%:R / 2%:R] = Raise e0.
Proof.
rewrite /family_sweep; case sweep_: (mapM _ _) => [//|e1] /= -[<-].
by have [delta delta_in run] := mapM_Raise_inv sweep_; exists delta.
Qed.

(** X20. The two cached loops raise nothing of their own: an exception
    that ends a loop is the exception raised by one call of the family's
    function, compute_costs_and_precisions_d_plus_1(dim, delta, [20,1.5])
    or compute_costs_and_precisions(dim, delta, [20,1.5]), for the i-th
    dim of 2, 5, 10, 15, whose key the dictionary did not hold, and for a
    magnitude delta of the 100 points between 0 and the i-th maximum
    (deltas_max[i], resp. the i-th ylim); in particular no index of
    deltas_max is out of range. *)
Theorem cached_loops_safe (datas : cache) (e0 : exn) :
  ((sweep_d_plus_1_cell datas).2 = Raise e0 ->
   exists i delta,
     let dim := nth 0%N [:: 2; 5; 10; 15]%N i in
     [/\ (i < 4)%N, ~~ contains datas (DimTag dim "d+1 example"),
         delta \in linspace 0 (nth 0 deltas_max i) 100
       & compute_costs_and_precisions_d_plus_1 dim delta
           [:: 20%:R; 3%:R / 2%:R] = Raise e0])
  /\
  ((sweep_d_plus_2_cell datas).2 = Raise e0 ->
   exists i delta,
     let dim := nth 0%N [:: 2; 5; 10; 15]%N i in
     let ylim := nth 0 [:: (25%:R / 1000%:R) ^+ 2; 1 / 10%:R ^+ 4;
                           (5%:R / 1000%:R) ^+ 2; (3%:R / 1000%:R) ^+ 2] i in
     [/\ (i < 4)%N, ~~ contains datas (Dim dim),
         delta \in linspace 0 ylim 100
       & compute_costs_and_precisions dim delta [:: 20%:R; 3%:R / 2%:R]
         = Raise e0]).
Proof.
split=> /cached_sweeps_raise [i [lt_i absent raised]].
  case: i lt_i absent raised => [|[|[|[|i]]]] //= _ absent;
    move=> /family_sweep_raise [delta delta_in raised].
  - by exists 0%N, delta.
  - by exists 1%N, delta.
  - by exists 2%N, delta.
  - by exists 3%N, delta.
case: i lt_i absent raised => [|[|[|[|i]]]] //= _ absent;
  move=> /family_sweep_raise [delta delta_in raised].
- by exists 0%N, delta.
- by exists 1%N, delta.
- by exists 2%N, delta.
- by exists 3%N, delta.
Qed.

End Notebook.

Arguments NonFin {R}.

(* ---------------------------------------------------------------------- *)
(* The notebook run with the projecting minimizer                         *)
(* ---------------------------------------------------------------------- *)

Section ProjectedRun.

Variables (R : rcfType) (pow : float R -> R -> float R) (d : nat).

Lemma covarianceEquilibrium_projected (X : seq 'rV[R]_d) (D exps : seq R) :
  covarianceEquilibrium pow (@projected_start R) X D exps
  = (call c := estimation_cost (nseq (size X) 1) X D in
     Ret (c, nseq (size X) 1)).
Proof. by rewrite /covarianceEquilibrium projected_start_ones. Qed.

End ProjectedRun.

Lemma one_agent_run (R : rcfType) (pow : float R -> R -> float R) (D : R) :
  let X := [:: (const_mx 1 : 'rV[R]_1)] in
  covarianceEquilibrium pow (@projected_start R) X [:: D] [:: 2%:R]
  = Ret (Fin (spec_estimation_cost [:: 1] X [:: D]), [:: 1]).
Proof.
move=> X; rewrite covarianceEquilibrium_projected /=.
by rewrite estimation_cost_Fin //= ?ltr01 // one_agent_unit.
Qed.

(* ---------------------------------------------------------------------- *)
(* The theorems at concrete points, over the real algebraic numbers       *)
(* ---------------------------------------------------------------------- *)

Lemma potential_separable_witness :
  let pow := fun (x : float algR) (_ : algR) => x in
  let L := [:: (1 : algR); 1] in
  let X := [:: (const_mx 1 : 'rV[algR]_1); const_mx 1] in
  let D := [:: (1 : algR); -1] in
  let exps := [:: (2%:R : algR); 3%:R] in
  size exps = size L
  /\ potential pow L X D exps
     = (call c := estimation_cost L X D in
        Ret (fadd c (\big[@fadd algR/Fin 0]_(0 <= j < size L)
                        privacy_cost pow (nth 0 L j) (nth 0 exps j) 1)))
  /\ potential pow (set_nth 0 L 0 2%:R) X D exps
     = (call c' := estimation_cost (set_nth 0 L 0 2%:R) X D in
        Ret (fadd c'
               (fadd (privacy_cost pow 2%:R (nth 0 exps 0) 1)
                     (\big[@fadd algR/Fin 0]_(0 <= j < size L | j != 0%N)
                         privacy_cost pow (nth 0 L j) (nth 0 exps j) 1)))).
Proof.
move=> pow L X D exps.
have [whole single] := @potential_separable algR pow 1 L X D exps erefl.
split=> //; split=> //.
by have [_] := single 0%N 2%:R isT.
Defined.

Lemma covarianceEquilibrium_cost_witness :
  let pow := fun (x : float algR) (_ : algR) => x in
  let X := [:: (const_mx 1 : 'rV[algR]_1)] in
  let c := Fin (spec_estimation_cost [:: 1] X [:: 0]) in
  covarianceEquilibrium pow (@projected_start algR) X [:: 0] [:: 2%:R]
  = Ret (c, [:: 1])
  /\ estimation_cost [:: 1] X [:: 0] = Ret c.
Proof.
move=> pow X c.
have run : covarianceEquilibrium pow (@projected_start algR) X [:: 0] [:: 2%:R]
           = Ret (c, [:: 1]) by apply: one_agent_run.
split=> //.
exact: (@covarianceEquilibrium_cost algR pow (@projected_start algR) 1
          X [:: 0] [:: 2%:R] c [:: 1] run).
Defined.

Lemma covarianceEquilibrium_bounds_witness :
  let pow := fun (x : float algR) (_ : algR) => x in
  let X := [:: (const_mx 1 : 'rV[algR]_1)] in
  let c := Fin (spec_estimation_cost [:: 1] X [:: 0]) in
  respects_bounds (@projected_start algR)
  /\ covarianceEquilibrium pow (@projected_start algR) X [:: 0] [:: 2%:R]
     = Ret (c, [:: 1])
  /\ (size [:: (1 : algR)] = size X
      /\ all (fun l : algR => 10%:R ^- 10 <= l <= 1) [:: 1]).
Proof.
move=> pow X c.
have keeps : respects_bounds (@projected_start algR).
  exact: projected_start_bounds.
have run : covarianceEquilibrium pow (@projected_start algR) X [:: 0] [:: 2%:R]
           = Ret (c, [:: 1]) by apply: one_agent_run.
split=> //; split=> //.
exact: (@covarianceEquilibrium_bounds algR pow (@projected_start algR) 1
          X [:: 0] [:: 2%:R] c [:: 1] keeps run).
Defined.

Lemma perturbation_sign_irrelevant_witness :
  let pow := fun (x : float algR) (_ : algR) => x in
  let X := [:: (const_mx 1 : 'rV[algR]_1); const_mx 1] in
  let D := [:: (1 : algR); -1] in
  let exps := [:: (2%:R : algR); 3%:R] in
  extensional (@projected_start algR)
  /\ covarianceEquilibrium pow (@projected_start algR) X D exps
     = covarianceEquilibrium pow (@projected_start algR) X
         [seq - x | x <- D] exps.
Proof.
move=> pow X D exps.
have ext : extensional (@projected_start algR).
  exact: projected_start_extensional.
split=> //.
exact: (proj2 (@perturbation_sign_irrelevant algR pow (@projected_start algR)
                 1 X D exps) ext).
Defined.

Lemma d_plus_2_scenario_witness :
  let pow := fun (x : float algR) (_ : algR) => x in
  let X := rcons (rcons (standard_basis algR 2) (ones algR 2)) (ones algR 2) in
  let D := nseq 2 0 ++ [:: (1 : algR); - 1] in
  let exponents := rcons (nseq 3 (20%:R : algR)) (3%:R / 2%:R) in
  ((0 < 2)%N /\ 0 <= (1 : algR))
  /\ [/\ scenario_d_plus_2 2 1 [:: 20%:R; 3%:R / 2%:R] = Ret (X, D, exponents),
         [/\ size D = 4%N, forall i, (i < 2)%N -> nth 0 D i = 0,
             nth 0 D 2 = 1 & nth 0 D 3 = - 1],
         D = [seq 1 * x | x <- nseq 2 0 ++ [:: 1; -1]]
       & compute_costs_and_precisions pow (@projected_start algR)
           2 1 [:: 20%:R; 3%:R / 2%:R]
         = covarianceEquilibrium pow (@projected_start algR) X D exponents].
Proof.
move=> pow X D exponents; split; first by rewrite ler01.
exact: (@d_plus_2_scenario algR pow (@projected_start algR) 2 1
          20%:R (3%:R / 2%:R) [::] isT ler01).
Defined.

Lemma compute_for_example_sweep_witness :
  let pow := fun (x : float algR) (_ : algR) => x in
  let deltas := linspace 0 (1 : algR) 100 in
  0 <= (1 : algR)
  /\ [/\ size deltas = 100%N,
         forall i, (i < 100)%N ->
           nth 0 deltas i = i%:R * (1 / 99%:R) /\ 0 <= nth 0 deltas i
       & nth 0 deltas 0 = 0 /\ nth 0 deltas 99 = 1].
Proof.
move=> pow deltas.
have [sz spaced ends _ _] :=
  @compute_for_example_sweep algR pow (@projected_start algR) 1 1 ler01.
by split; [exact: ler01 | split].
Defined.

(* ---------------------------------------------------------------------- *)
(* Runs of the sweeps with a projecting and with a raising minimizer      *)
(* ---------------------------------------------------------------------- *)

Section MorePoints.

Variables (R : rcfType) (pow : float R -> R -> float R).

Lemma projected_sweep_returns (deltaMax : R) (example_number : int) :
  exists ds cs ps,
    compute_for_example pow (@projected_start R) deltaMax example_number
    = Ret (ds, cs, ps).
Proof.
rewrite /compute_for_example.
have [cps ->] : exists cps,
    mapM (fun delta =>
            covarianceEquilibrium pow (@projected_start R)
              (X_1D_examples R example_number)
              [seq Num.sqrt delta * x
              | x <- perturbation_matrix_1Dexamples R example_number]
              (exponents_1D_examples R example_number))
         (linspace 0 deltaMax 100) = Ret cps.
  apply: mapM_total => delta _; rewrite covarianceEquilibrium_projected.
  have [szD _] := size_1D_examples R example_number.
  have ones_gt0 n : all (fun l : R => 0 < l) (nseq n 1).
    by rewrite all_nseq ltr01 orbT.
  have unitM := information_matrix_unit (ones_gt0 _) (esym (size_nseq _ _))
                  (@spanning_1D_examples R example_number).
  pose D' := [seq Num.sqrt delta * x
              | x <- perturbation_matrix_1Dexamples R example_number].
  pose L1 := nseq (size (X_1D_examples R example_number)) (1 : R).
  have le_D : (size L1 <= size D')%N.
    by rewrite size_nseq size_map szD.
  have [cost _] := @estimation_cost_gt0 R 1 _ _ D' isT
    (esym (size_nseq _ _)) le_D (ones_gt0 _) unitM.
  by rewrite -/D' cost; eexists.
by eexists; eexists; eexists.
Qed.

Lemma raising_sweep (dim : nat) (deltaMax : R) :
  family_sweep
    (fun d => compute_costs_and_precisions_d_plus_1 pow
                (fun _ _ _ _ => Raise LinAlgError) d)
    dim deltaMax
  = Raise LinAlgError.
Proof.
rewrite /family_sweep; have := size_linspace 0 deltaMax 100.
case: (linspace 0 deltaMax 100) => [|delta deltas] //= _.
by rewrite /compute_costs_and_precisions_d_plus_1 scenario_d_plus_1E.
Qed.

Lemma cached_sweeps_first_raise (key_of : nat -> key)
  (family : nat -> R -> seq R -> result (float R * seq R)) (dim : nat)
  (dmax : R) (todo : seq (nat * result R)) (e0 : exn) :
  family_sweep family dim dmax = Raise e0 ->
  (cached_sweeps key_of family ((dim, Ret dmax) :: todo) [::]).2 = Raise e0.
Proof. by move=> raises /=; rewrite raises. Qed.

Lemma raising_cell :
  (sweep_d_plus_1_cell pow (fun _ _ _ _ => Raise LinAlgError) [::]).2
  = Raise LinAlgError.
Proof. exact: (cached_sweeps_first_raise _ _ (raising_sweep _ _)). Qed.

(* With the projecting minimizer every sweep of the family with d+1 agents
   returns. *)
Lemma projected_family_returns (dim : nat) (deltaMax : R) :
  (0 < dim)%N ->
  exists v,
    family_sweep
      (fun d => compute_costs_and_precisions_d_plus_1 pow
                  (@projected_start R) d)
      dim deltaMax
    = Ret v.
Proof.
move=> dim_gt0; rewrite /family_sweep.
have [cps ->] : exists cps,
    mapM (fun delta =>
            compute_costs_and_precisions_d_plus_1 pow (@projected_start R)
              dim delta [:: 20%:R; 3%:R / 2%:R])
         (linspace 0 deltaMax 100) = Ret cps.
  apply: mapM_total => delta _.
  rewrite /compute_costs_and_precisions_d_plus_1 scenario_d_plus_1E bindE.
  rewrite covarianceEquilibrium_projected.
  set X := rcons _ _; set D := rcons _ _.
  have ones_gt0 n : all (fun l : R => 0 < l) (nseq n 1).
    by rewrite all_nseq ltr01 orbT.
  have unitM := information_matrix_unit (ones_gt0 _) (esym (size_nseq _ _))
                  (@spanning_d_plus_1 R dim).
  pose L1 := nseq (size X) (1 : R).
  have le_D : (size L1 <= size D)%N.
    by rewrite size_nseq !size_rcons size_standard_basis size_nseq.
  have [cost _] := @estimation_cost_gt0 R dim _ _ D dim_gt0
    (esym (size_nseq _ _)) le_D (ones_gt0 _) unitM.
  by rewrite cost; eexists.
by eexists.
Qed.

Lemma cached_sweeps_first_stored (key_of : nat -> key)
  (family : nat -> R -> seq R -> result (float R * seq R)) (dim : nat)
  (dmax : R) (todo : seq (nat * result R)) (v : sweep R) :
  family_sweep family dim dmax = Ret v ->
  lookup (cached_sweeps key_of family ((dim, Ret dmax) :: todo) [::]).1
    (key_of dim) = Some v.
Proof.
move=> run /=; rewrite run; apply: cached_sweeps_keep.
by rewrite /store /= /lookup /= key_eqb_refl.
Qed.

Lemma projected_cell_stores :
  exists v,
    lookup (sweep_d_plus_1_cell pow (@projected_start R) [::]).1
      (DimTag 2 "d+1 example") = Some v.
Proof.
have [v run] := @projected_family_returns 2 (15%:R / 10%:R ^+ 4) isT.
by exists v; apply: (cached_sweeps_first_stored _ _ run).
Qed.

End MorePoints.

Lemma builders_need_two_exponents_witness :
  let pow := fun (x : float algR) (_ : algR) => x in
  (size ([::] : seq algR) < 2)%N
  /\ (compute_costs_and_precisions_d_plus_1 pow (@projected_start algR)
        2 1 [::] = Raise IndexError
      /\ compute_costs_and_precisions pow (@projected_start algR)
           2 1 [::] = Raise IndexError).
Proof.
move=> pow; split; first by [].
exact: (@builders_need_two_exponents algR pow (@projected_start algR) 2 1
          [::] isT).
Defined.

Lemma d_plus_2_unbiased_witness :
  let X := rcons (rcons (standard_basis algR 2) (ones algR 2)) (ones algR 2) in
  let D := nseq 2 0 ++ [:: (1 : algR); - 1] in
  let E := rcons (nseq 3 (20%:R : algR)) (3%:R / 2%:R) in
  scenario_d_plus_2 2 1 [:: 20%:R; 3%:R / 2%:R] = Ret (X, D, E)
  /\ [/\ size X = 4%N, size D = 4%N, size E = 4%N & net_bias X D = 0].
Proof.
move=> X D E.
have built : scenario_d_plus_2 2 1 [:: 20%:R; 3%:R / 2%:R] = Ret (X, D, E).
  exact: scenario_d_plus_2E.
split; first by [].
exact: (@d_plus_2_unbiased algR 2 1 [:: 20%:R; 3%:R / 2%:R] X D E built).
Defined.

Lemma cached_entries_kept_witness :
  let pow := fun (x : float algR) (_ : algR) => x in
  let v : sweep algR := ([::], [::], [::]) in
  let datas : cache algR := [:: (Dim 2, v)] in
  lookup datas (Dim 2) = Some v
  /\ (lookup (sweep_d_plus_1_cell pow (@projected_start algR) datas).1 (Dim 2)
      = Some v
      /\ lookup (sweep_d_plus_2_cell pow (@projected_start algR) datas).1
           (Dim 2) = Some v).
Proof.
move=> pow v datas; split; first by [].
exact: (@cached_entries_kept algR pow (@projected_start algR) datas (Dim 2) v
          erefl).
Defined.

Lemma cached_loops_complete_witness :
  let pow := fun (x : float algR) (_ : algR) => x in
  let v : sweep algR := ([::], [::], [::]) in
  let datas : cache algR :=
    [:: (Dim 2, v); (Dim 5, v); (Dim 10, v); (Dim 15, v)] in
  (sweep_d_plus_2_cell pow (@projected_start algR) datas).2 = Ret tt
  /\ (all (fun dim => contains
                        (sweep_d_plus_2_cell pow (@projected_start algR)
                           datas).1 (Dim dim)) [:: 2; 5; 10; 15]%N
      /\ sweep_d_plus_2_cell pow (@projected_start algR)
           (sweep_d_plus_2_cell pow (@projected_start algR) datas).1
         = ((sweep_d_plus_2_cell pow (@projected_start algR) datas).1,
            Ret tt)).
Proof.
move=> pow v datas.
have done : (sweep_d_plus_2_cell pow (@projected_start algR) datas).2 = Ret tt.
  by [].
split; first by [].
exact: (proj2 (@cached_loops_complete algR pow (@projected_start algR) datas)
          done).
Defined.

Lemma d_plus_1_scenario_witness :
  let pow := fun (x : float algR) (_ : algR) => x in
  let X := rcons (standard_basis algR 2) (2%:R^-1 *: ones algR 2) in
  let D := rcons (nseq 2 (Num.sqrt (1 : algR))) (- 2%:R * Num.sqrt 1) in
  let exponents := rcons (nseq 2 (20%:R : algR)) (3%:R / 2%:R) in
  ((0 < 2)%N /\ 0 <= (1 : algR))
  /\ [/\ scenario_d_plus_1 2 1 [:: 20%:R; 3%:R / 2%:R] = Ret (X, D, exponents),
         [/\ size X = 3%N, size D = 3%N & size exponents = 3%N]
       & compute_costs_and_precisions_d_plus_1 pow (@projected_start algR)
           2 1 [:: 20%:R; 3%:R / 2%:R]
         = covarianceEquilibrium pow (@projected_start algR) X D exponents].
Proof.
move=> pow X D exponents; split; first by rewrite ler01.
exact: (@d_plus_1_scenario algR pow (@projected_start algR) 2 1
          20%:R (3%:R / 2%:R) [::] isT ler01).
Defined.

Lemma covarianceEquilibrium_returns_witness :
  let pow := fun (x : float algR) (_ : algR) => x in
  let X := [:: (const_mx 1 : 'rV[algR]_1)] in
  let c := Fin (spec_estimation_cost [:: 1] X [:: 0]) in
  covarianceEquilibrium pow (@projected_start algR) X [:: 0] [:: 2%:R]
  = Ret (c, [:: 1])
  /\ [/\ (0 < size X)%N,
         projected_start (fun L => potential pow L X [:: 0] [:: 2%:R])
           (nseq (size X) 1)
           [seq (lower_bound algR, upper_bound algR) | i <- range (size X)]
           (tolerance algR)
         = Ret [:: 1],
         (size [:: 1%R : algR] <= size X)%N
       & (size [:: 1%R : algR] <= size [:: 0%R : algR])%N].
Proof.
move=> pow X c.
have run : covarianceEquilibrium pow (@projected_start algR) X [:: 0] [:: 2%:R]
           = Ret (c, [:: 1]) by apply: one_agent_run.
split; first by [].
exact: (@covarianceEquilibrium_returns algR pow (@projected_start algR) 1
          X [:: 0] [:: 2%:R] c [:: 1] run).
Defined.

Lemma one_dim_examples_unbiased_witness :
  let X := X_1D_examples algR 1 in
  let E := exponents_1D_examples algR 1 in
  let D := perturbation_matrix_1Dexamples algR 1 in
  0 <= (1 : algR)
  /\ [/\ size D = size X, size E = size X, all (fun a => 1 < a) E
       & net_bias X [seq Num.sqrt 1 * x | x <- D] = 0].
Proof.
move=> X E D; split; first exact: ler01.
exact: (@one_dim_examples_unbiased algR 1 1 ler01).
Defined.

Lemma cached_loops_own_keys_witness :
  let pow := fun (x : float algR) (_ : algR) => x in
  let datas : cache algR := [::] in
  let k := DimTag 2 "d+1 example" in
  (lookup datas k = None
   /\ lookup (sweep_d_plus_1_cell pow (@projected_start algR) datas).1 k)
  /\ exists2 dim, dim \in [:: 2; 5; 10; 15]%N & k = DimTag dim "d+1 example".
Proof.
move=> pow datas k.
have [v stored] := projected_cell_stores pow (R := algR).
have present :
  lookup (sweep_d_plus_1_cell pow (@projected_start algR) datas).1 k.
  by rewrite stored.
split; first by [].
exact: (proj1 (@cached_loops_own_keys algR pow (@projected_start algR) datas k
                 erefl) present).
Defined.

Lemma cached_loops_safe_witness :
  let pow := fun (x : float algR) (_ : algR) => x in
  let raising := fun _ _ _ _ => Raise LinAlgError : result (seq algR) in
  (sweep_d_plus_1_cell pow raising [::]).2 = Raise LinAlgError
  /\ exists i delta,
       let dim := nth 0%N [:: 2; 5; 10; 15]%N i in
       [/\ (i < 4)%N, ~~ contains ([::] : cache algR) (DimTag dim "d+1 example"),
           delta \in linspace 0 (nth 0 (deltas_max algR) i) 100
         & compute_costs_and_precisions_d_plus_1 pow raising dim delta
             [:: 20%:R; 3%:R / 2%:R] = Raise LinAlgError].
Proof.
move=> pow raising.
have raised : (sweep_d_plus_1_cell pow raising [::]).2 = Raise LinAlgError.
  exact: raising_cell.
split; first by [].
exact: (proj1 (@cached_loops_safe algR pow raising [::] LinAlgError) raised).
Defined.

(* ---------------------------------------------------------------------- *)
(* estimation_cost over the operations of numpy                           *)
(* ---------------------------------------------------------------------- *)

Section NumpyTheory.

Variables (F V M : Type).
Variable zeros : M.
Variable outer : V -> M.
Variable scale : F -> M -> M.
Variable madd : M -> M -> M.
Variable trace_inverse : M -> result F.
Variable square : F -> F.
Variable div : F -> F -> F.
Variable add : F -> F -> F.
Variable zero : F.






(* A loop that meets an index out of range raises IndexError. *)
Lemma accumulate_short (L : seq F) (X : seq V) (acc : M) :
  (size X < size L)%N ->
  foldM (fun var i =>
           call Li := getitem L i in
           call Xi := getitem X i in
           Ret (madd var (scale Li (outer Xi))))
        acc (range (size L))
  = Raise IndexError.
Proof.
move=> lt_XL; case loop: (foldM _ _ _) => [var|e1].
  case: (foldM_fails (a := size X) _ _ loop); first by rewrite mem_range.
  by move=> b b'; case: (getitem L (size X)) => [Li|//] /=; rewrite getitem_out.
congr Raise; apply: foldM_raises loop => b i e'.
case gL: (getitem L i) => [Li|e2] /=; last by case=> <-; apply: getitem_raises gL.
by case gX: (getitem X i) => [Xi|e2] //= -[<-]; apply: getitem_raises gX.
Qed.

Lemma penalty_short (L D : seq F) (ts : seq F) :
  (size D < size L)%N ->
  mapM (fun i =>
          call Di := getitem D i in
          call Li := getitem L i in
          Ret (div (square Di) Li))
       (range (size L))
  <> Ret ts.
Proof.
move=> lt_DL; apply: (mapM_fails (a := size D)); first by rewrite mem_range.
by move=> b; rewrite getitem_out.
Qed.

(** X1. The index errors of estimation_cost, whatever the arithmetic
    gives: it raises IndexError when X is empty and when X has fewer data
    points than L has precisions, before any matrix is inverted; it never
    returns a value when D is shorter than L; and a call that returns
    found a data point and a perturbation for every precision. *)
Theorem estimation_cost_outcome (L : seq F) (X : seq V) (D : seq F) :
  let cost :=
    Numpy.estimation_cost zeros outer scale madd trace_inverse square div
      add zero L X D in
  [/\ (size X == 0%N) || (size X < size L)%N -> cost = Raise IndexError,
      (size D < size L)%N -> forall v, cost <> Ret v
    & forall v, cost = Ret v ->
        [/\ (0 < size X)%N, (size L <= size X)%N & (size L <= size D)%N]].
Proof.
rewrite /= /Numpy.estimation_cost; split.
- case: X => [|x X] //=; rewrite -/(range _) => lt_XL.
  by rewrite (@accumulate_short L (x :: X)).
- move=> lt_DL v; case: (getitem X 0) => [X0|//] /=.
  case: (foldM _ _ _) => [var|//] /=; case: (trace_inverse var) => [gls|//] /=.
  by case terms: (mapM _ _) => [ts|//]; case: (penalty_short lt_DL terms).
- move=> v; case gX: (getitem X 0) => [X0|//] /=.
  have [X_gt0 _] := getitem_Ret X0 gX.
  case loop: (foldM _ _ _) => [var|//] /=.
  case: (trace_inverse var) => [gls|//] /=.
  case terms: (mapM _ _) => [ts|//] /= _; split=> //.
    case: (leqP (size L) (size X)) => // lt_XL.
    by move: loop; rewrite accumulate_short.
  case: (leqP (size L) (size D)) => // lt_DL.
  by case: (penalty_short lt_DL terms).
Qed.

(* What the failure on a zero precision rests on, in IEEE 754 arithmetic:
   a division by zero gives inf or nan, and an addition keeps inf and
   nan. *)
Variable finite : F -> bool.
Variable is_zero : F -> bool.
Hypothesis div_zero : forall x y, is_zero y -> finite (div x y) = false.
Hypothesis add_keeps :
  forall x y, finite x = false \/ finite y = false -> finite (add x y) = false.

Lemma has_getitem (A : Type) (p : pred A) (s : seq A) :
  has p s -> exists i x, [/\ (i < size s)%N, getitem s i = Ret x & p x].
Proof.
elim: s => [|a s IH] //= /orP [pa|/IH [i [x [lt_i gi px]]]].
  by exists 0%N, a.
by exists i.+1, x.
Qed.

Lemma sum_keeps (ts : seq F) (acc : F) :
  finite acc = false \/ has (fun t => ~~ finite t) ts ->
  finite (foldl add acc ts) = false.
Proof.
elim: ts acc => [|t ts IH] acc /=; first by case.
move=> bad; apply: IH; case: bad => [acc_bad|/orP [/negbTE t_bad|later]].
- by left; apply: add_keeps; left.
- by left; apply: add_keeps; right.
- by right.
Qed.

(** C6. estimation_cost fails whenever some L_i is zero: it raises, or it
    returns a value that is not finite (inf or nan), never an ordinary
    number, whatever X and D are, in every dimension and whatever the other
    operations of numpy round to. *)
Theorem estimation_cost_zero_precision (L : seq F) (X : seq V) (D : seq F) :
  has is_zero L ->
  forall v,
    Numpy.estimation_cost zeros outer scale madd trace_inverse square div
      add zero L X D = Ret v ->
    finite v = false.
Proof.
move=> /has_getitem [i [l [lt_i gL zero_l]]] v; rewrite /Numpy.estimation_cost.
case: (getitem X 0) => [X0|//] /=.
case: (foldM _ _ _) => [var|//] /=.
case: (trace_inverse var) => [gls|//] /=.
case terms: (mapM _ _) => [ts|//] /= -[<-].
apply: add_keeps; right; apply: sum_keeps; right.
have [sz nths] := mapM_inv terms.
apply/(has_nthP l); exists i; first by rewrite sz /range size_iota.
have := nths 0%N l i; rewrite /range size_iota nth_iota // add0n => /(_ lt_i).
case: (getitem D i) => [Di|//] /=; rewrite gL /= => -[<-].
by rewrite div_zero.
Qed.

End NumpyTheory.

(* ---------------------------------------------------------------------- *)
(* The idealised code is the code over numpy's operations, at exact ones  *)
(* ---------------------------------------------------------------------- *)

Section IdealisedInstance.

Variables (R : rcfType) (d : nat).

(* The embedding of the section Notebook is the same code, read at the
   exact operations on Fin r and NonFin. *)
Lemma estimation_cost_numpy (L : seq R) (X : seq 'rV[R]_d) (D : seq R) :
  estimation_cost L X D
  = Numpy.estimation_cost (0 : 'M[R]_d) (@outer R d)
      (fun l m => if l is Fin r then r *: m else 0) +%R
      (fun var => call g := trace_inverse var in Ret (Fin g))
      (fun x => if x is Fin r then Fin (r ^+ 2) else NonFin)
      (fun a b => if (a, b) is (Fin x, Fin y) then fdiv x y else NonFin)
      (@fadd R) (Fin 0)
      [seq Fin l | l <- L] X [seq Fin x | x <- D].
Proof.
rewrite /estimation_cost /Numpy.estimation_cost size_map.
case: (getitem X 0) => [X0|//] /=.
have -> :
  foldM (fun var i =>
           call Li := getitem [seq Fin l | l <- L] i in
           call Xi := getitem X i in
           Ret (var + (if Li is Fin r then r *: outer Xi else 0)))
        (0 : 'M[R]_d) (range (size L))
  = foldM (fun var i =>
             call Li := getitem L i in
             call Xi := getitem X i in
             Ret (var + Li *: outer Xi))
          (0 : 'M[R]_d) (range (size L)).
  apply: eq_in_foldM => var i _; rewrite getitem_map.
  by case: (getitem L i).
case: (foldM _ _ _) => [var|//] /=.
case: (trace_inverse var) => [gls|//] /=.
have -> // :
  mapM (fun i =>
          call Di := getitem [seq Fin x | x <- D] i in
          call Li := getitem [seq Fin l | l <- L] i in
          Ret (if (if Di is Fin r then Fin (r ^+ 2) else NonFin, Li)
                 is (Fin x, Fin y) then fdiv x y else NonFin))
       (range (size L))
  = mapM (fun i =>
            call Di := getitem D i in
            call Li := getitem L i in
            Ret (fdiv (Di ^+ 2) Li))
         (range (size L)).
apply: eq_in_mapM => i _; rewrite !getitem_map.
by case: (getitem D i) => //= Di; case: (getitem L i).
Qed.

End IdealisedInstance.

(* ---------------------------------------------------------------------- *)
(* The binary64 code: what holds at every input                           *)
(* ---------------------------------------------------------------------- *)

Section Binary64Theory.

Import PrimFloat SpecFloat FloatOps FloatAxioms.
Local Open Scope float_scope.

(* A float is finite when it is a zero or a number, not inf nor nan. *)
Lemma is_finiteE (x : float) :
  is_finite x
  = match Prim2SF x with
    | S754_zero _ | S754_finite _ _ _ => true
    | _ => false
    end.
Proof.
rewrite /is_finite /is_nan /is_infinity !eqb_spec abs_spec.
have -> : Prim2SF infinity = S754_infinity false by [].
case: (Prim2SF x) => [s|s| |s m e] //=; first by case: s.
rewrite /SFeqb /= BinInt.Z.compare_refl BinPos.Pos.compare_cont_refl.
by case: s.
Qed.

Lemma eqb_zero (x : float) :
  (x =? 0) = true -> exists s, Prim2SF x = S754_zero s.
Proof.
rewrite eqb_spec; have -> : Prim2SF 0 = S754_zero false by [].
by case: (Prim2SF x) => [s|[]| |[] m e] //= _; exists s.
Qed.

(* x / 0 is inf or nan. *)
Lemma div_by_zero (x y : float) : (y =? 0) = true -> is_finite (x / y) = false.
Proof.
move=> /eqb_zero [s y0]; rewrite is_finiteE div_spec y0.
by case: (Prim2SF x).
Qed.

(* inf and nan are kept by every addition. *)
Lemma add_not_finite (a b : float) :
  is_finite a = false \/ is_finite b = false -> is_finite (a + b) = false.
Proof.
rewrite !is_finiteE add_spec.
by case: (Prim2SF a) => [sa|[]| |sa ma ea]; case: (Prim2SF b) => [sb|[]| |sb mb eb];
   rewrite /SF64add /=; case.
Qed.













Lemma square_opp (x : float) : Binary64.square (- x) = Binary64.square x.
Proof.
apply: Prim2SF_inj; rewrite /Binary64.square !mul_spec opp_spec.
by case: (Prim2SF x) => [[]|[]| |[] m e].
Qed.

(** X22. In binary64, on data points of length 1, the sign of the
    perturbation does not matter, bit for bit: estimation_cost(L, X, -D)
    and estimation_cost(L, X, D) have the same outcome, the same float or
    the same exception, at every L, X and D. *)
Theorem estimation_cost_1D_opp (L X D : seq float) :
  Binary64.estimation_cost_1D L X [seq - x | x <- D]
  = Binary64.estimation_cost_1D L X D.
Proof.
rewrite /Binary64.estimation_cost_1D.
have -> // :
  mapM (fun i => call Di := getitem [seq - x | x <- D] i in
                 call Li := getitem L i in
                 Ret (Binary64.square Di / Li)) (range (size L))
  = mapM (fun i => call Di := getitem D i in
                   call Li := getitem L i in
                   Ret (Binary64.square Di / Li)) (range (size L)).
apply: eq_in_mapM => i _; rewrite getitem_map.
by case: (getitem D i) => //= Di; rewrite square_opp.
Qed.

Lemma basis_row (d i : nat) :
  (i < d)%N ->
  Binary64.e d i = Ret (mkseq (fun j => if j == i then 1 else 0) d).
Proof.
move=> lt_i; rewrite /Binary64.e (@setitem_set_nth _ 0) ?size_nseq //.
congr Ret; apply: (@eq_from_nth _ 0) => [|j].
  by rewrite size_set_nth size_nseq size_mkseq; apply/maxn_idPr.
rewrite size_set_nth size_nseq (maxn_idPr lt_i) => lt_j.
by rewrite nth_set_nth /= nth_nseq lt_j nth_mkseq.
Qed.

Lemma bind_Ret (A B : Type) (a : A) (k : A -> result B) :
  bind (Ret a) k = k a.
Proof. by []. Qed.

Lemma rcons_nseq_set (T : Type) (a b x0 : T) (n : nat) :
  set_nth x0 (nseq n.+1 a) n b = rcons (nseq n a) b.
Proof. by elim: n => [|n IH] //=; rewrite -IH. Qed.

(** X23. The arrays that the builder of the family with d+1 agents stores
    in binary64, for every d, every delta and at least two exponent values:
    X is the d basis vectors followed by d copies of fl(1/d), D is d
    copies of 1*sqrt(delta) followed by float(-d)*sqrt(delta), and the
    exponents are d copies of 1*exps[0] followed by exps[1], each product,
    quotient and square root rounded to binary64. *)
Theorem scenario_d_plus_1_binary64 (d : nat) (delta exps0 exps1 : float)
  (rest : seq float) :
  Binary64.scenario_d_plus_1 d delta [:: exps0, exps1 & rest]
  = Ret (rcons [seq mkseq (fun j => if j == i then 1 else 0) d | i <- iota 0 d]
               (nseq d (1 / Binary64.of_nat d)),
         rcons (nseq d (1 * sqrt delta)) (Binary64.of_neg d * sqrt delta),
         rcons (nseq d (1 * exps0)) exps1).
Proof.
rewrite /Binary64.scenario_d_plus_1.
have -> : mapM (Binary64.e d) (range d)
          = Ret [seq mkseq (fun j => if j == i then 1 else 0) d | i <- iota 0 d].
  rewrite -mapM_Ret; apply: eq_in_mapM => i; rewrite mem_range.
  exact: basis_row.
rewrite -[getitem _ 0]/(Ret exps0) -[getitem _ 1]/(Ret exps1) !bind_Ret.
rewrite !map_nseq !(@setitem_set_nth _ 0) ?size_nseq // !bind_Ret.
by rewrite !rcons_nseq_set.
Qed.

(* On data points of length 1 the matrices are numbers: the binary64 code
   is the code over numpy's operations at the operations of the machine. *)
Lemma estimation_cost_1D_numpy (L X D : seq float) :
  Binary64.estimation_cost_1D L X D
  = Numpy.estimation_cost 0 (fun x => x * x) mul add
      Binary64.trace_inverse_1D Binary64.square div add 0 L X D.
Proof. by []. Qed.


Lemma estimation_cost_outcome_witness :
  let L := [:: 1; 1] in
  let X := [:: 1] in
  let D := [:: 1; 1] in
  (size X == 0%N) || (size X < size L)%N
  /\ Binary64.estimation_cost_1D L X D = Raise IndexError.
Proof.
move=> L X D.
have short : (size X == 0%N) || (size X < size L)%N by [].
split; first by [].
rewrite estimation_cost_1D_numpy.
have [raises _ _] :=
  @estimation_cost_outcome float float float 0 (fun x => x * x) mul add
    Binary64.trace_inverse_1D Binary64.square div add 0 L X D.
exact: raises.
Defined.

Lemma estimation_cost_zero_precision_witness :
  let L := [:: 1; 0] in
  let X := [:: 1; 1] in
  let D := [:: 0; 0] in
  [/\ forall x y, (y =? 0) = true -> is_finite (x / y) = false,
      forall x y, is_finite x = false \/ is_finite y = false ->
        is_finite (x + y) = false,
      has (fun l => l =? 0) L
    & Binary64.estimation_cost_1D L X D = Ret nan]
  /\ is_finite nan = false.
Proof.
move=> L X D.
have zeroL : has (fun l => l =? 0) L by [].
have run : Binary64.estimation_cost_1D L X D = Ret nan by vm_compute.
split; first by split=> //; [exact: div_by_zero | exact: add_not_finite].
exact: (@estimation_cost_zero_precision float float float 0 (fun x => x * x)
          mul add Binary64.trace_inverse_1D Binary64.square div add 0
          is_finite (fun l => l =? 0) div_by_zero add_not_finite L X D
          zeroL nan run).
Defined.

End Binary64Theory.

(* ---------------------------------------------------------------------- *)
(* What rounding, overflow and underflow decide                           *)
(* ---------------------------------------------------------------------- *)

Section Rounding.

Import PrimFloat.
Local Open Scope float_scope.



(** C6, as the code runs it.  Three calls of estimation_cost on data points
    of length 1, evaluated in binary64.
    - L = [1], X = [[1]], D = [2^700]: the precision is positive and the
      information matrix is [[1]], yet D[0]**2 overflows and the result is
      inf, not a finite real.
    - L = [2^-600], X = [[2^-300]], D = [0]: the precision is positive and
      the information matrix 2^-1200 is not zero, yet it underflows to 0.0
      and the call raises LinAlgError.
    - L = [2^53, 1, 1, -(2^53+2)], X = [[1],[1],[1],[1]], D = [0,0,0,0]:
      the information matrix is 2^53 + 1 + 1 - (2^53+2) = 0, singular, and
      no L_i is zero, yet the accumulated sum is -2.0 (each 1 is absorbed
      by 2^53) and the call returns the ordinary float -0.5. *)
Lemma estimation_cost_1D_rounding :
  [/\ [/\ all (fun l => 0 <? l) [:: 1],
          BinInt.Z.eqb (Binary64.exact_information_1D [:: 1] [:: 1]) BinNums.Z0
          = false,
          Binary64.estimation_cost_1D [:: 1] [:: 1] [:: 0x1p700]
          = Ret infinity
        & is_finite infinity = false],
      [/\ all (fun l => 0 <? l) [:: 0x1p-600],
          BinInt.Z.eqb
            (Binary64.exact_information_1D [:: 0x1p-600] [:: 0x1p-300])
            BinNums.Z0
          = false
        & Binary64.estimation_cost_1D [:: 0x1p-600] [:: 0x1p-300] [:: 0]
          = Raise LinAlgError]
    & let L := [:: 0x1p53; 1; 1; -0x1.0000000000001p53] in
      let X := [:: 1; 1; 1; 1] in
      [/\ all is_finite L && all is_finite X,
          BinInt.Z.eqb (Binary64.exact_information_1D L X) BinNums.Z0 = true,
          all (fun l => ~~ (l =? 0)) L,
          Binary64.estimation_cost_1D L X [:: 0; 0; 0; 0] = Ret (-0.5)
        & is_finite (-0.5) = true]].
Proof. by split; split; vm_compute. Qed.

(** C8, as the code runs it.  The arrays that the builder of the family
    with d+1 agents stores in binary64, at delta = 1.
    - d = 5, a dimension of the notebook: the last data point holds
      fl(1/5) = 0x1.999999999999ap-3, which is greater than 1/5, and
      D = [1,1,1,1,1,-5]; the net bias 1 - 5*fl(1/5) = -2^-54 is not zero
      in any coordinate.
    - d = 49: the net bias is not zero over the reals, and it is not zero
      either when the sum is taken in binary64, where
      1 + (-49)*fl(1/49) = 2^-53. *)
Lemma d_plus_1_net_bias_rounding :
  (let X := [:: [:: 1; 0; 0; 0; 0]; [:: 0; 1; 0; 0; 0]; [:: 0; 0; 1; 0; 0];
                [:: 0; 0; 0; 1; 0]; [:: 0; 0; 0; 0; 1];
                nseq 5 0x1.999999999999ap-3] in
   let D := [:: 1; 1; 1; 1; 1; -5] in
   [/\ Binary64.scenario_d_plus_1 5 1 [:: 20; 1.5]
       = Ret (X, D, [:: 20; 20; 20; 20; 20; 1.5]),
       all (all is_finite) X && all is_finite D
     & all (fun j => BinInt.Z.ltb (Binary64.exact_net_bias X D j) BinNums.Z0)
           (range 5)])
  /\
  (exists X D exponents,
     [/\ Binary64.scenario_d_plus_1 49 1 [:: 20; 1.5] = Ret (X, D, exponents),
         all (all is_finite) X && all is_finite D,
         all (fun j => BinInt.Z.ltb BinNums.Z0 (Binary64.exact_net_bias X D j))
             (range 49)
       & all (fun j => Binary64.float_net_bias X D j =? 0x1p-53) (range 49)]).
Proof.
split; first by split; vm_compute.
by do 3!eexists; split; [vm_compute; reflexivity | vm_compute..].
Qed.

End Rounding.
